(** * Spoolman client: the column editor and the list pages' column layout

    A shallow embedding of

    - [client/src/components/columnEditor.tsx] (the column editor dialog:
      [resolvedOrder], [moveColumn], [toggleColumn], [updateWidth], the
      [onOk] emission, the rows and their [hover] and width input), and
    - [client/src/pages/filaments/list.tsx] and
      [client/src/pages/vendors/list.tsx] (the column order initialiser and
      its reconciliation effect, the [onApply] handler and the header resize
      handle [handleResizeStart]; the registry [allColumnsWithExtraFields],
      [columnOptions], [translateColumnI18nKey], [getColumnKey],
      [columnsWithResizers] and [tableColumns]); the two pages carry the
      same code.

    Data is modelled the way the code holds it:
    - a column id is a [string]; an array of ids is a [list string];
    - an array slot that may hold [undefined] is an [option string];
    - [Record<string, number>] is a [gmap string Js.double] (own string keys
      only);
    - a JavaScript [Set<string>] is a duplicate-free list in insertion order,
      which is the order [Array.from] reads it back in;
    - a JavaScript number is an IEEE 754 double, [Js.double]: NaN, an
      infinity, or a finite value counted in units of 2^-1074 (every finite
      double is a whole number of them); [+] and [-] round to the nearest
      double, ties to even, as the code's arithmetic does. The two zeros are
      not told apart: the code never divides, and JSON writes both as 0. *)

From Stdlib Require Import ZArith Lia Ascii String.
From Stdlib Require SpecFloat.
From stdpp Require Import gmap strings list fin_maps pretty.

Local Open Scope Z_scope.

(** ** The JavaScript built-ins the code calls *)

Module Js.

(** [Array.prototype.splice] resolves a relative start index: a negative index
    counts from the end, and the result is clamped to [0 .. len]. *)
Definition relativeStart (len start : Z) : Z :=
  if start <? 0 then Z.max (len + start) 0 else Z.min start len.

(** [arr.splice(start, deleteCount, ...items)]: the removed elements, and the
    array afterwards. *)
Definition splice {A : Type} (arr : list A) (start deleteCount : Z)
    (items : list A) : list A * list A :=
  let len := Z.of_nat (length arr) in
  let actualStart := relativeStart len start in
  let actualDeleteCount := Z.min (Z.max deleteCount 0) (len - actualStart) in
  let s := Z.to_nat actualStart in
  let d := Z.to_nat actualDeleteCount in
  (take d (drop s arr), take s arr ++ items ++ drop (s + d)%nat arr).

(** [Set.prototype.add]: a new member goes to the end of the insertion
    order, a present one stays where it is. *)
Definition Set_add (s : list string) (x : string) : list string :=
  if decide (x ∈ s) then s else s ++ [x].

(** [Set.prototype.delete]. *)
Definition Set_delete (s : list string) (x : string) : list string :=
  filter (λ y, y ≠ x) s.

(** [Set.prototype.has]. *)
Definition Set_has (s : list string) (x : string) : bool :=
  bool_decide (x ∈ s).

(** [new Set(iterable)]: the members are added one after the other. *)
Definition Set_new (iterable : list string) : list string :=
  foldl Set_add [] iterable.

(** [Array.from(set)]: the members in insertion order. *)
Definition Array_from (s : list string) : list string := s.

(** A JavaScript number, an IEEE 754 binary64 value. A finite double is a
    whole number of units of 2^-1074 (the smallest positive double):
    [Finite u] is the number [u * 2^-1074]. Not every [u] is a double, only
    those of at most 53 significant bits and of magnitude below 2^2098 (that
    is, below 2^1024); [round64] yields only such ones. *)
Inductive double :=
  | NaN
  | Infinity (negative : bool)
  | Finite (units : Z).

#[global] Instance double_eq_dec : EqDecision double.
Proof. solve_decision. Defined.

(** The integer [n] as a number. *)
Definition double_of_Z (n : Z) : double := Finite (n * 2 ^ 1074).

(** The number [m * 2^e], for [-1074 <= e]. *)
Definition dyadic (m e : Z) : double := Finite (m * 2 ^ (e + 1074)).

(** The multiple of [2^k] nearest to [a >= 0], as a count of such multiples;
    of two equally near multiples, the even one. *)
Definition roundToMultiple (a k : Z) : Z :=
  let q := a / 2 ^ k in
  let r := a mod 2 ^ k in
  match 2 * r ?= 2 ^ k with
  | Lt => q
  | Gt => q + 1
  | Eq => if Z.even q then q else q + 1
  end.

(** The number of low bits a magnitude of [a] units loses when it is kept to
    53 significant bits. *)
Definition dropped (a : Z) : Z := Z.max (Z.log2 a - 52) 0.

(** A magnitude of [a] units kept to 53 significant bits, rounding to
    nearest, ties to even. *)
Definition nearest53 (a : Z) : Z :=
  roundToMultiple a (dropped a) * 2 ^ dropped a.

(** Rounding to nearest, ties to even: the double nearest to an exact result
    of [exact] units; a result of magnitude 2^1024 or more is an infinity. *)
Definition round64 (exact : Z) : double :=
  let r := nearest53 (Z.abs exact) in
  if 2 ^ 2098 <=? r then Infinity (exact <? 0)
  else Finite (Z.sgn exact * r).

(** [x + y]. *)
Definition add (x y : double) : double :=
  match x, y with
  | NaN, _ | _, NaN => NaN
  | Infinity s, Infinity s' => if Bool.eqb s s' then x else NaN
  | Infinity _, Finite _ => x
  | Finite _, Infinity _ => y
  | Finite a, Finite b => round64 (a + b)
  end.

(** [-x]. *)
Definition neg (x : double) : double :=
  match x with
  | NaN => NaN
  | Infinity s => Infinity (negb s)
  | Finite a => Finite (- a)
  end.

(** [x - y]. *)
Definition sub (x y : double) : double := add x (neg y).

(** [x < y]. *)
Definition lt (x y : double) : bool :=
  match x, y with
  | NaN, _ | _, NaN => false
  | Infinity s, Infinity s' => s && negb s'
  | Infinity s, Finite _ => s
  | Finite _, Infinity s => negb s
  | Finite a, Finite b => a <? b
  end.

(** [x <= y]. *)
Definition le (x y : double) : bool :=
  match x, y with
  | NaN, _ | _, NaN => false
  | Infinity s, Infinity s' => s || negb s'
  | Infinity s, Finite _ => s
  | Finite _, Infinity s => negb s
  | Finite a, Finite b => a <=? b
  end.

(** [Math.max(x, y)]: NaN when either is NaN, else the larger. *)
Definition Math_max (x y : double) : double :=
  match x, y with
  | NaN, _ | _, NaN => NaN
  | _, _ => if lt x y then y else x
  end.

(** [Math.round(x)]: the integer nearest to [x], a half rounding towards
    +infinity, that is the floor of [x + 1/2] taken exactly; NaN and the
    infinities are returned as they are. *)
Definition Math_round (x : double) : double :=
  match x with
  | Finite a => Finite ((a + 2 ^ 1073) / 2 ^ 1074 * 2 ^ 1074)
  | NaN | Infinity _ => x
  end.

(** The same double in the representation of the Standard Library's IEEE
    754 specification ([SpecFloat], binary64: precision 53, [emax] 1024),
    and back. *)
Definition to_spec (x : double) : SpecFloat.spec_float :=
  match x with
  | NaN => SpecFloat.S754_nan
  | Infinity s => SpecFloat.S754_infinity s
  | Finite a => SpecFloat.binary_normalize 53 1024 a (-1074) false
  end.

Definition of_spec (x : SpecFloat.spec_float) : double :=
  match x with
  | SpecFloat.S754_nan => NaN
  | SpecFloat.S754_infinity s => Infinity s
  | SpecFloat.S754_zero _ => Finite 0
  | SpecFloat.S754_finite s m e =>
      Finite ((if s then -1 else 1) * Z.pos m * 2 ^ (e + 1074))
  end.

(** [str.replace(pattern, replacement)] where both are one-character strings
    (and [replacement] is not [$]): the first occurrence of [pattern] is
    replaced, the rest of the string is kept. *)
Fixpoint String_replace (pattern replacement : Ascii.ascii) (str : string)
    : string :=
  match str with
  | EmptyString => EmptyString
  | String c rest =>
      if Ascii.eqb c pattern then String replacement rest
      else String c (String_replace pattern replacement rest)
  end.

(** [str.indexOf(search) === 0], for a non-empty [search]: [str] starts with
    [search]. *)
Definition String_startsWith (str search : string) : bool :=
  String.prefix search str.

(** What the code needs of a JavaScript number used as a key: whether it is
    truthy (neither 0 nor NaN), and its [toString()]. *)
Class Number (number : Type) := {
  Number_truthy : number → bool;
  Number_toString : number → string;
}.

End Js.

(** ** The column editor dialog: [components/columnEditor.tsx] *)

Module ColumnEditor.

(** [interface ColumnEditorColumn { id: string; label: string }] *)
Record ColumnEditorColumn := { id : string; label : string }.

(** The layout object
    [{ columnOrder: string[]; showColumns: string[]; columnWidths: Record<string, number> }]:
    the three layout props of the dialog, and the argument of [onApply]. *)
Record LayoutState := {
  columnOrder : list string;
  showColumns : list string;
  columnWidths : gmap string Js.double;
}.

(** The dialog's local state, [order], [visibleColumns] and [widths]. A slot
    of [order] is a column id or [undefined] ([None]): [moveColumn] writes
    [undefined] when its drag index is out of range. *)
Record State := {
  order : list (option string);
  visibleColumns : list string;
  widths : gmap string Js.double;
}.

(** [useState([])], [useState(new Set())], [useState({})]. *)
Definition initialState : State :=
  {| order := []; visibleColumns := Js.Set_new []; widths := ∅ |}.

(** The effect on [open]: when the dialog is open, the working copy is loaded
    from the props. *)
Definition openEffect (open : bool) (props : LayoutState) (st : State)
    : State :=
  if negb open then st
  else {| order := Some <$> columnOrder props;
          visibleColumns := Js.Set_new (showColumns props);
          widths := columnWidths props |}.

(** [new Map(columns.map((column) => [column.id, column]))]: the entries are
    set in array order, a later one replacing an earlier one of the same id. *)
Definition columnsById (columns : list ColumnEditorColumn)
    : gmap string ColumnEditorColumn :=
  foldl (λ m column, <[id column := column]> m) ∅ columns.

(** [columnsById.has(id)] on a slot of [order]; the keys are strings, so
    [undefined] is not among them. *)
Definition columnsById_has (columns : list ColumnEditorColumn)
    (slot : option string) : bool :=
  match slot with
  | Some i => bool_decide (is_Some (columnsById columns !! i))
  | None => false
  end.

(** [resolvedOrder]:
<<
    const known = order.filter((id) => columnsById.has(id));
    const missing = columns.filter((column) => !known.includes(column.id)).map((column) => column.id);
    return [...known, ...missing];
>>
    The slots that pass the filter hold strings, so [known] is read as an
    array of strings. *)
Definition resolvedOrder (columns : list ColumnEditorColumn)
    (order : list (option string)) : list string :=
  let known :=
    omap (λ slot, if columnsById_has columns slot then slot else None) order in
  let missing := id <$> filter (λ column, id column ∉ known) columns in
  known ++ missing.

(** [moveColumn]:
<<
    const next = [...prev];
    const [dragged] = next.splice(dragIndex, 1);
    next.splice(hoverIndex, 0, dragged);
    return next;
>> *)
Definition moveColumn (prev : list (option string)) (dragIndex hoverIndex : Z)
    : list (option string) :=
  let next := prev in
  let '(removed, next) := Js.splice next dragIndex 1 [] in
  let dragged := match removed with d :: _ => d | [] => None end in
  (Js.splice next hoverIndex 0 [dragged]).2.

(** [toggleColumn]:
<<
    const next = new Set(prev);
    if (next.has(id)) { next.delete(id); } else { next.add(id); }
    return next;
>> *)
Definition toggleColumn (prev : list string) (i : string) : list string :=
  let next := Js.Set_new prev in
  if Js.Set_has next i then Js.Set_delete next i else Js.Set_add next i.

(** [updateWidth]:
<<
    const next = { ...prev };
    if (width === undefined) { delete next[id]; } else { next[id] = width; }
    return next;
>> *)
Definition updateWidth (prev : gmap string Js.double) (i : string)
    (width : option Js.double) : gmap string Js.double :=
  let next := prev in
  match width with
  | None => delete i next
  | Some w => <[i := w]> next
  end.

(** The drag item of a row, [interface DragItem { id: string; index: number }]. *)
Record DragItem := { item_id : string; index : Z }.

(** [hover(item)] of the row rendered at [rowIndex] (its [ref] attached):
<<
    if (!ref.current || item.index === index) { return; }
    moveColumn(item.index, index);
    item.index = index;
>>
    The drag item afterwards, and the dialog's [order] afterwards. *)
Definition hover (rowIndex : Z) (item : DragItem)
    (order : list (option string)) : DragItem * list (option string) :=
  if decide (index item = rowIndex) then (item, order)
  else ({| item_id := item_id item; index := rowIndex |},
        moveColumn order (index item) rowIndex).

(** What the width input hands to its [onChange]: [number | string | null]. *)
Inductive InputValue :=
  | VNumber (q : Js.double)
  | VString (s : string)
  | VNull.

(** The props the row gives its width input,
<<
    <InputNumber min={60} placeholder="auto" value={width}
      onChange={(value) => onWidthChange(id, typeof value === "number" ? value : undefined)} />
>>
    [onChange] is recorded by the arguments of the [onWidthChange] call it
    makes. [InputNumber] itself is a component of the antd library. *)
Record InputNumberProps := {
  min : Js.double;
  value : option Js.double;
  onChange : InputValue → string * option Js.double;
}.

Definition widthInput (i : string) (width : option Js.double)
    : InputNumberProps :=
  {| min := Js.double_of_Z 60;
     value := width;
     onChange := λ v, (i, match v with VNumber q => Some q | _ => None end) |}.

(** The user's actions on the open dialog. *)
Inductive Event :=
  | Hover (rowIndex : Z) (item : DragItem)
  | Toggle (i : string)
  | WidthInput (i : string) (v : InputValue)
  | Ok
  | Cancel.

(** The calls the dialog makes on its parent. *)
Inductive Call :=
  | onApply (nextState : LayoutState)
  | onClose.

(** [onOk]:
<<
    onApply({ columnOrder: resolvedOrder, showColumns: Array.from(visibleColumns), columnWidths: widths })
>> *)
Definition onOk (columns : list ColumnEditorColumn) (st : State) : list Call :=
  [onApply {| columnOrder := resolvedOrder columns (order st);
              showColumns := Js.Array_from (visibleColumns st);
              columnWidths := widths st |}].

(** One user action: the state afterwards and the calls made on the parent,
    in the order they are made. *)
Definition handle (columns : list ColumnEditorColumn) (st : State)
    (ev : Event) : State * list Call :=
  match ev with
  | Hover rowIndex item =>
      ({| order := (hover rowIndex item (order st)).2;
          visibleColumns := visibleColumns st;
          widths := widths st |}, [])
  | Toggle i =>
      ({| order := order st;
          visibleColumns := toggleColumn (visibleColumns st) i;
          widths := widths st |}, [])
  | WidthInput i v =>
      let '(i', width) := onChange (widthInput i (widths st !! i)) v in
      ({| order := order st;
          visibleColumns := visibleColumns st;
          widths := updateWidth (widths st) i' width |}, [])
  | Ok => (st, onOk columns st)
  | Cancel => (st, [onClose])
  end.

(** A run of user actions: the final state and all the calls made. *)
Fixpoint run (columns : list ColumnEditorColumn) (st : State)
    (evs : list Event) : State * list Call :=
  match evs with
  | [] => (st, [])
  | ev :: evs =>
      let '(st', calls) := handle columns st ev in
      let '(st'', calls') := run columns st' evs in
      (st'', calls ++ calls')
  end.

(** The props of a rendered row:
<<
    <ColumnEditorRow key={id} id={id} label={column.label} index={index}
      isVisible={visibleColumns.has(id)} width={widths[id]} ... />
>> *)
Module Row.
Record props := {
  id : string;
  label : string;
  index : Z;
  isVisible : bool;
  width : option Js.double;
}.
End Row.

(** The rows of the dialog, [null] ([None]) where no column is found:
<<
    resolvedOrder.map((id, index) => {
      const column = columnsById.get(id);
      if (!column) { return null; }
      return <ColumnEditorRow ... />;
    })
>> *)
Definition rows (columns : list ColumnEditorColumn) (st : State)
    : list (option Row.props) :=
  imap (λ index i,
          match columnsById columns !! i with
          | None => None
          | Some column =>
              Some {| Row.id := i;
                      Row.label := label column;
                      Row.index := Z.of_nat index;
                      Row.isVisible := Js.Set_has (visibleColumns st) i;
                      Row.width := widths st !! i |}
          end)
       (resolvedOrder columns (order st)).

End ColumnEditor.

(** ** The list pages: [pages/filaments/list.tsx], [pages/vendors/list.tsx] *)

Module ListPage.

(** The body shared by the [columnOrder] initialiser (on [savedOrder]) and by
    the reconciliation effect (on [prev]):
<<
    const known = new Set(allColumnsWithExtraFields);
    const filtered = savedOrder.filter((columnId) => known.has(columnId));
    const missing = allColumnsWithExtraFields.filter((columnId) => !filtered.includes(columnId));
    return [...filtered, ...missing];
>> *)
Definition reconcile (savedOrder allColumnsWithExtraFields : list string)
    : list string :=
  let known : gset string := list_to_set allColumnsWithExtraFields in
  let filtered := filter (λ columnId, columnId ∈ known) savedOrder in
  let missing :=
    filter (λ columnId, columnId ∉ filtered) allColumnsWithExtraFields in
  filtered ++ missing.

(** [useState(() => { const savedOrder = initialState.columnOrder ??
    allColumnsWithExtraFields; ... })]. *)
Definition columnOrder_init (initialState_columnOrder : option (list string))
    (allColumnsWithExtraFields : list string) : list string :=
  let savedOrder :=
    default allColumnsWithExtraFields initialState_columnOrder in
  reconcile savedOrder allColumnsWithExtraFields.

(** The page's layout state: [showColumns], [columnOrder], [columnWidths],
    and [editColumnsOpen]. *)
Record PageState := {
  showColumns : list string;
  columnOrder : list string;
  columnWidths : gmap string Js.double;
  editColumnsOpen : bool;
}.

(** The reconciliation effect, run when [allColumnsWithExtraFields] changes:
    [setColumnOrder((prev) => ...)]. *)
Definition reconcileEffect (allColumnsWithExtraFields : list string)
    (p : PageState) : PageState :=
  {| showColumns := showColumns p;
     columnOrder := reconcile (columnOrder p) allColumnsWithExtraFields;
     columnWidths := columnWidths p;
     editColumnsOpen := editColumnsOpen p |}.

(** The [onApply] handler given to the dialog:
<<
    setColumnOrder(nextState.columnOrder);
    setShowColumns(nextState.showColumns);
    setColumnWidths(nextState.columnWidths);
    setEditColumnsOpen(false);
>> *)
Definition onApply (nextState : ColumnEditor.LayoutState) (p : PageState)
    : PageState :=
  {| showColumns := ColumnEditor.showColumns nextState;
     columnOrder := ColumnEditor.columnOrder nextState;
     columnWidths := ColumnEditor.columnWidths nextState;
     editColumnsOpen := false |}.

(** The [onClose] handler given to the dialog: [setEditColumnsOpen(false)]. *)
Definition onClose (p : PageState) : PageState :=
  {| showColumns := showColumns p;
     columnOrder := columnOrder p;
     columnWidths := columnWidths p;
     editColumnsOpen := false |}.

(** The page receiving the calls the dialog makes, one after the other. *)
Definition receive (p : PageState) (calls : list ColumnEditor.Call)
    : PageState :=
  foldl (λ p call,
           match call with
           | ColumnEditor.onApply nextState => onApply nextState p
           | ColumnEditor.onClose => onClose p
           end) p calls.

(** What the [mousedown] handler of a resize handle captures for the drag. *)
Record ResizeDrag := {
  columnId : string;
  startX : Js.double;
  startWidth : Js.double;
}.

(** [handleResizeStart(columnId)(event)]; [headerCell] is the width of the
    bounding rectangle of the closest [th], if there is one.
<<
    const startX = event.clientX;
    const startWidth =
      columnWidths[columnId] ?? (headerCell ? Math.round(headerCell.getBoundingClientRect().width) : 0);
>> *)
Definition handleResizeStart (columnWidths : gmap string Js.double)
    (columnId : string) (clientX : Js.double) (headerCell : option Js.double)
    : ResizeDrag :=
  {| columnId := columnId;
     startX := clientX;
     startWidth :=
       match columnWidths !! columnId with
       | Some w => w
       | None =>
           match headerCell with
           | Some width => Js.Math_round width
           | None => Js.double_of_Z 0
           end
       end |}.

(** [onMouseMove(moveEvent)]:
<<
    const nextWidth = Math.max(60, startWidth + moveEvent.clientX - startX);
    setColumnWidths((prev) => ({ ...prev, [columnId]: Math.round(nextWidth) }));
>> *)
Definition onMouseMove (d : ResizeDrag) (clientX : Js.double)
    (prev : gmap string Js.double) : gmap string Js.double :=
  let nextWidth :=
    Js.Math_max (Js.double_of_Z 60)
                (Js.sub (Js.add (startWidth d) clientX) (startX d)) in
  <[columnId d := Js.Math_round nextWidth]> prev.

(** The mouse moves of one drag, until [mouseup] removes the listeners. *)
Definition drag (d : ResizeDrag) (moves : list Js.double)
    (prev : gmap string Js.double) : gmap string Js.double :=
  foldl (λ widths clientX, onMouseMove d clientX widths) prev moves.

(** A custom field as the pages read it: [field.key] and [field.name]. *)
Module Field.
Record t := { key : string; name : string }.
End Field.

(** [allColumnsWithExtraFields]:
<<
    [...allColumns, ...(extraFields.data?.map((field) => "extra." + field.key) ?? [])]
>> *)
Definition allColumnsWithExtraFields (allColumns : list string)
    (extraFields_data : option (list Field.t)) : list string :=
  allColumns
  ++ match extraFields_data with
     | Some data => (λ field, "extra." +:+ Field.key field) <$> data
     | None => []
     end.

(** [translateColumnI18nKey] of the filament page:
<<
    columnName = columnName.replace(".", "_");
    return `filament.fields.${columnName}`;
>> *)
Definition translateColumnI18nKey (columnName : string) : string :=
  let columnName := Js.String_replace "."%char "_"%char columnName in
  "filament.fields." +:+ columnName.

(** The key the vendor page translates, [`vendor.fields.${column_id}`]. *)
Definition vendorI18nKey (column_id : string) : string :=
  "vendor.fields." +:+ column_id.

(** [columnOptions], with the translation function [t] and the page's key
    ([translateColumnI18nKey] or [vendorI18nKey]) as [i18nKey]:
<<
    allColumnsWithExtraFields.map((column_id) => {
      if (column_id.indexOf("extra.") === 0) {
        const extraField = extraFields.data?.find((field) => "extra." + field.key === column_id);
        return { id: column_id, label: extraField?.name ?? column_id };
      }
      return { id: column_id, label: t(i18nKey(column_id)) };
    })
>> *)
Definition columnOptions (t : string → string) (i18nKey : string → string)
    (allColumnsWithExtraFields : list string)
    (extraFields_data : option (list Field.t))
    : list ColumnEditor.ColumnEditorColumn :=
  (λ column_id,
     if Js.String_startsWith column_id "extra." then
       let extraField :=
         extraFields_data ≫=
           List.find (λ field,
                        bool_decide ("extra." +:+ Field.key field = column_id))
       in
       {| ColumnEditor.id := column_id;
          ColumnEditor.label :=
            match extraField with
            | Some field => Field.name field
            | None => column_id
            end |}
     else
       {| ColumnEditor.id := column_id;
          ColumnEditor.label := t (i18nKey column_id) |})
  <$> allColumnsWithExtraFields.

(** A column key, [React.Key]: a string or a number. *)
Inductive Key (number : Type) :=
  | KeyString (s : string)
  | KeyNumber (n : number).
Arguments KeyString {number} s.
Arguments KeyNumber {number} n.

(** [if (key)]: a non-empty string, a truthy number. *)
Definition Key_truthy `{Js.Number number} (k : Key number) : bool :=
  match k with
  | KeyString s => negb (bool_decide (s = ""%string))
  | KeyNumber n => Js.Number_truthy n
  end.

(** [key.toString()]. *)
Definition Key_toString `{Js.Number number} (k : Key number) : string :=
  match k with
  | KeyString s => s
  | KeyNumber n => Js.Number_toString n
  end.

(** [dataIndex]: a string, a number, or an array of strings and numbers. *)
Inductive DataIndex (number : Type) :=
  | IndexString (s : string)
  | IndexNumber (n : number)
  | IndexPath (path : list (Key number)).
Arguments IndexString {number} s.
Arguments IndexNumber {number} n.
Arguments IndexPath {number} path.

(** A column title: what the column came with, or the header the page wraps
    around it,
<<
    <div className="spoolman-resizable-header">
      <span>{column.title}</span>
      <span className="spoolman-resizer" onMouseDown={handleResizeStart(columnKey)} />
    </div>
>> *)
Inductive Header (node : Type) :=
  | Plain (title : node)
  | Resizable (title : Header node) (columnKey : string).
Arguments Plain {node} title.
Arguments Resizable {node} title columnKey.

(** The props of a table column the pages read or write, [key], [dataIndex]
    and [title]; [rest] stands for all the others, which the spread copies. *)
Record ColumnType (number node rest : Type) := {
  key : option (Key number);
  dataIndex : option (DataIndex number);
  title : Header node;
  rest_props : rest;
}.
Arguments key {number node rest} _.
Arguments dataIndex {number node rest} _.
Arguments title {number node rest} _.
Arguments rest_props {number node rest} _.

(** [getColumnKey]:
<<
    if (column.key) { return column.key.toString(); }
    if (Array.isArray(column.dataIndex)) { return column.dataIndex.join("."); }
    if (typeof column.dataIndex === "string") { return column.dataIndex; }
    return undefined;
>> *)
Definition getColumnKey `{Js.Number number} {node rest : Type}
    (column : ColumnType number node rest) : option string :=
  let byDataIndex :=
    match dataIndex column with
    | Some (IndexPath path) => Some (String.concat "." (Key_toString <$> path))
    | Some (IndexString s) => Some s
    | Some (IndexNumber _) | None => None
    end in
  match key column with
  | Some k => if Key_truthy k then Some (Key_toString k) else byDataIndex
  | None => byDataIndex
  end.

(** [columnsWithResizers]:
<<
    baseColumns.map((column) => {
      const columnKey = getColumnKey(column);
      if (!columnKey || columnKey === "actions") { return column; }
      return { ...column, title: (<div ...> ... </div>) };
    })
>> *)
Definition columnsWithResizers `{Js.Number number} {node rest : Type}
    (baseColumns : list (ColumnType number node rest))
    : list (ColumnType number node rest) :=
  (λ column,
     match getColumnKey column with
     | Some columnKey =>
         if bool_decide (columnKey = ""%string)
            || bool_decide (columnKey = "actions"%string)
         then column
         else {| key := key column;
                 dataIndex := dataIndex column;
                 title := Resizable (title column) columnKey;
                 rest_props := rest_props column |}
     | None => column
     end)
  <$> baseColumns.

(** [orderedColumns]:
<<
    columnOrder
      .map((columnId) => columnsWithResizers.find((column) => getColumnKey(column) === columnId))
      .filter(Boolean)
>> *)
Definition orderedColumns `{Js.Number number} {node rest : Type}
    (columnOrder : list string)
    (columnsWithResizers : list (ColumnType number node rest))
    : list (ColumnType number node rest) :=
  omap (λ columnId,
          List.find (λ column,
                       bool_decide (getColumnKey column = Some columnId))
                    columnsWithResizers)
       columnOrder.

(** The test of [remainingColumns], [!columnKey || !orderSet.has(columnKey)]. *)
Definition remains `{Js.Number number} {node rest : Type}
    (orderSet : gset string) (column : ColumnType number node rest) : bool :=
  match getColumnKey column with
  | Some columnKey =>
      bool_decide (columnKey = ""%string) || bool_decide (columnKey ∉ orderSet)
  | None => true
  end.

(** [remainingColumns], with [orderSet = new Set(columnOrder)]. *)
Definition remainingColumns `{Js.Number number} {node rest : Type}
    (columnOrder : list string)
    (columnsWithResizers : list (ColumnType number node rest))
    : list (ColumnType number node rest) :=
  let orderSet : gset string := list_to_set columnOrder in
  filter (λ column, remains orderSet column) columnsWithResizers.

(** [tableColumns = [...orderedColumns, ...remainingColumns]]. *)
Definition tableColumns `{Js.Number number} {node rest : Type}
    (columnOrder : list string)
    (columnsWithResizers : list (ColumnType number node rest))
    : list (ColumnType number node rest) :=
  orderedColumns columnOrder columnsWithResizers
  ++ remainingColumns columnOrder columnsWithResizers.

End ListPage.

(** ** Reconciliation as the specification words it *)

(** Keep the elements of [savedOrder] that exist in [registry], in their
    relative order, then append the elements of [registry] not present in
    [savedOrder], in registry order. *)
Definition reconcile_spec (savedOrder registry : list string) : list string :=
  filter (λ x, x ∈ registry) savedOrder
  ++ filter (λ x, x ∉ savedOrder) registry.

(** The column ids an [order] array holds, its [undefined] slots skipped. *)
Definition slotIds (order : list (option string)) : list string :=
  omap (λ slot, slot) order.

(** The [onApply] calls among the calls a run of the dialog makes. *)
Definition applied (calls : list ColumnEditor.Call)
    : list ColumnEditor.LayoutState :=
  omap (λ call, match call with
                | ColumnEditor.onApply nextState => Some nextState
                | ColumnEditor.onClose => None
                end) calls.

(** The confirms among the user's actions. *)
Definition confirms (evs : list ColumnEditor.Event) : list ColumnEditor.Event :=
  omap (λ ev, match ev with
              | ColumnEditor.Ok => Some ev
              | _ => None
              end) evs.

(** One drag over the rows of the dialog: the rows hovered, in turn, with the
    drag item and the working order threaded through the [hover] calls. *)
Definition dragOver (rowIndexes : list Z) (item : ColumnEditor.DragItem)
    (order : list (option string))
    : ColumnEditor.DragItem * list (option string) :=
  foldl (λ '(item, order) rowIndex, ColumnEditor.hover rowIndex item order)
        (item, order) rowIndexes.

(** Integer keys: [toString()] is the decimal numeral, and 0 is the only
    integer that is not truthy. *)
Definition integerKeys : Js.Number Z :=
  {| Js.Number_truthy := λ n, negb (n =? 0);
     Js.Number_toString := pretty |}.

(** * Theorems *)

Section ListFacts.
Context {A : Type}.

(** Two predicates that agree on the elements of a list filter it alike. *)
Lemma filter_agree (P1 P2 : A → Prop)
    `{!∀ x, Decision (P1 x), !∀ x, Decision (P2 x)} (l : list A) :
  (∀ x, x ∈ l → (P1 x ↔ P2 x)) → filter P1 l = filter P2 l.
Proof.
  induction l as [|a l IH]; intros Hag; [done|].
  rewrite !filter_cons.
  assert (Ha : P1 a ↔ P2 a) by (apply Hag; left).
  rewrite IH by (intros x Hx; apply Hag; by right).
  destruct (decide (P1 a)), (decide (P2 a)); tauto.
Qed.

Lemma filter_all (P : A → Prop) `{!∀ x, Decision (P x)} (l : list A) :
  (∀ x, x ∈ l → P x) → filter P l = l.
Proof.
  induction l as [|a l IH]; intros Hall; [done|].
  rewrite filter_cons_True by (apply Hall; left).
  f_equal. apply IH. intros x Hx. apply Hall. by right.
Qed.

Lemma filter_none (P : A → Prop) `{!∀ x, Decision (P x)} (l : list A) :
  (∀ x, x ∈ l → ¬ P x) → filter P l = [].
Proof.
  induction l as [|a l IH]; intros Hnone; [done|].
  rewrite filter_cons_False by (apply Hnone; left).
  apply IH. intros x Hx. apply Hnone. by right.
Qed.
End ListFacts.

(** *** Reconciliation on the list pages *)

Lemma reconcile_unfold (s r : list string) :
  ListPage.reconcile s r
  = filter (λ x, x ∈ r) s ++ filter (λ x, x ∉ filter (λ y, y ∈ r) s) r.
Proof.
  unfold ListPage.reconcile.
  assert (Hk : filter (λ x, x ∈ (list_to_set r : gset string)) s
               = filter (λ x, x ∈ r) s).
  { apply list_filter_iff. intros x. apply elem_of_list_to_set. }
  by rewrite Hk.
Qed.

Lemma reconcile_eq_spec (s r : list string) :
  ListPage.reconcile s r = reconcile_spec s r.
Proof.
  rewrite reconcile_unfold. unfold reconcile_spec. f_equal.
  apply filter_agree. intros x Hx.
  rewrite list_elem_of_filter. tauto.
Qed.

Lemma elem_of_reconcile (s r : list string) (x : string) :
  x ∈ ListPage.reconcile s r ↔ x ∈ r.
Proof.
  rewrite reconcile_eq_spec. unfold reconcile_spec.
  rewrite elem_of_app, !list_elem_of_filter.
  destruct (decide (x ∈ s)); tauto.
Qed.

Lemma reconcile_fixpoint (s r : list string) :
  (∀ x, x ∈ s → x ∈ r) → (∀ x, x ∈ r → x ∈ s) →
  ListPage.reconcile s r = s.
Proof.
  intros Hsr Hrs. rewrite reconcile_eq_spec. unfold reconcile_spec.
  rewrite (filter_all _ s) by done.
  rewrite (filter_none _ r) by (intros x Hx Hn; apply Hn; auto).
  by rewrite app_nil_r.
Qed.

Lemma NoDup_reconcile (s r : list string) :
  NoDup s → NoDup r → NoDup (ListPage.reconcile s r).
Proof.
  intros Hs Hr. rewrite reconcile_eq_spec. unfold reconcile_spec.
  apply NoDup_app. split_and!.
  - by apply NoDup_filter.
  - intros x. rewrite !list_elem_of_filter. tauto.
  - by apply NoDup_filter.
Qed.

(** *** Reconciliation in the dialog *)

Lemma columnsById_has_iff (columns : list ColumnEditor.ColumnEditorColumn)
    (i : string) :
  is_Some (ColumnEditor.columnsById columns !! i)
  ↔ i ∈ ColumnEditor.id <$> columns.
Proof.
  unfold ColumnEditor.columnsById.
  assert (Hgen : ∀ m : gmap string ColumnEditor.ColumnEditorColumn,
    is_Some (foldl (λ m c, <[ColumnEditor.id c := c]> m) m columns !! i)
    ↔ is_Some (m !! i) ∨ i ∈ ColumnEditor.id <$> columns).
  { induction columns as [|c columns IH]; intros m; simpl.
    - rewrite elem_of_nil. tauto.
    - rewrite IH, elem_of_cons.
      destruct (decide (ColumnEditor.id c = i)) as [->|Hne].
      + rewrite lookup_insert_eq. split; [intros _|intros _; left]; eauto.
      + rewrite lookup_insert_ne by done. intuition congruence. }
  rewrite Hgen, lookup_empty. split; [intros [[? [=]]|]|]; auto.
Qed.

Lemma known_slots (columns : list ColumnEditor.ColumnEditorColumn)
    (order : list (option string)) :
  omap (λ slot, if ColumnEditor.columnsById_has columns slot
                then slot else None) order
  = filter (λ x, x ∈ ColumnEditor.id <$> columns) (slotIds order).
Proof.
  unfold slotIds.
  induction order as [|[i|] order IH]; simpl; [done| |done].
  repeat match goal with
         | |- context [list_omap _ _ ?f ?l] =>
             change (list_omap _ _ f l) with (omap f l)
         end.
  rewrite filter_cons, <- IH.
  pose proof (columnsById_has_iff columns i) as Hi.
  case_bool_decide; case_decide; tauto.
Qed.

Lemma missing_ids (known : list string)
    (columns : list ColumnEditor.ColumnEditorColumn) :
  ColumnEditor.id <$> filter (λ c, ColumnEditor.id c ∉ known) columns
  = filter (λ x, x ∉ known) (ColumnEditor.id <$> columns).
Proof.
  induction columns as [|c columns IH]; [done|].
  rewrite fmap_cons, !filter_cons.
  destruct (decide (ColumnEditor.id c ∉ known));
    rewrite ?fmap_cons; by rewrite IH.
Qed.

(** The dialog's [resolvedOrder] is the pages' [reconcile], run on the ids
    of the working order against the ids of [columns]. *)
Lemma resolvedOrder_reconcile (columns : list ColumnEditor.ColumnEditorColumn)
    (order : list (option string)) :
  ColumnEditor.resolvedOrder columns order
  = ListPage.reconcile (slotIds order) (ColumnEditor.id <$> columns).
Proof.
  unfold ColumnEditor.resolvedOrder.
  rewrite reconcile_unfold, known_slots. f_equal.
  apply missing_ids.
Qed.

Lemma slotIds_Some (s : list string) : slotIds (Some <$> s) = s.
Proof.
  unfold slotIds. induction s as [|x s IH]; [done|].
  rewrite fmap_cons. simpl. f_equal. exact IH.
Qed.

(** ** C1: what reconciliation returns *)

(** C1. For every saved order and every registry, reconciliation returns the
    elements of the saved order that exist in the registry, in their relative
    order, followed by the elements of the registry not present in the saved
    order, in registry order. This holds of the pages' [reconcile] and of the
    dialog's [resolvedOrder] (whose registry is the ids of [columns]). *)
Theorem reconcile_keeps_known_appends_missing
    (savedOrder registry : list string)
    (columns : list ColumnEditor.ColumnEditorColumn) :
  ListPage.reconcile savedOrder registry = reconcile_spec savedOrder registry
  ∧ ColumnEditor.resolvedOrder columns (Some <$> savedOrder)
    = reconcile_spec savedOrder (ColumnEditor.id <$> columns).
Proof.
  split; [apply reconcile_eq_spec|].
  by rewrite resolvedOrder_reconcile, slotIds_Some, reconcile_eq_spec.
Qed.

(** ** C2: reconciliation is idempotent *)

(** C2. For every saved order [s] and registry [r],
    [reconcile (reconcile s r) r = reconcile s r]; likewise the dialog's
    [resolvedOrder], fed its own result, returns it unchanged. *)
Theorem reconcile_idempotent (s r : list string)
    (columns : list ColumnEditor.ColumnEditorColumn)
    (order : list (option string)) :
  ListPage.reconcile (ListPage.reconcile s r) r = ListPage.reconcile s r
  ∧ ColumnEditor.resolvedOrder columns
      (Some <$> ColumnEditor.resolvedOrder columns order)
    = ColumnEditor.resolvedOrder columns order.
Proof.
  assert (Hidem : ∀ s r : list string,
    ListPage.reconcile (ListPage.reconcile s r) r = ListPage.reconcile s r).
  { intros s' r'. apply reconcile_fixpoint; intros x; apply elem_of_reconcile. }
  split; [apply Hidem|].
  rewrite (resolvedOrder_reconcile columns (Some <$> _)), slotIds_Some.
  rewrite resolvedOrder_reconcile. apply Hidem.
Qed.

(** ** C3: reconciling the registry against itself *)

(** C3. For every list [r] of column ids, [reconcile r r = r]. So the order a
    page starts from when nothing was saved is the registry itself, and a
    dialog opened on the registry order shows it unchanged. *)
Theorem reconcile_registry_noop (r : list string)
    (columns : list ColumnEditor.ColumnEditorColumn) :
  ListPage.reconcile r r = r
  ∧ ListPage.columnOrder_init None r = r
  ∧ ColumnEditor.resolvedOrder columns (Some <$> (ColumnEditor.id <$> columns))
    = ColumnEditor.id <$> columns.
Proof.
  assert (Hnoop : ∀ r : list string, ListPage.reconcile r r = r)
    by (intros r'; by apply reconcile_fixpoint).
  split_and!; [apply Hnoop|apply Hnoop|].
  rewrite resolvedOrder_reconcile, slotIds_Some. apply Hnoop.
Qed.

(** ** C9: the reconciled order is a permutation of the registry *)

(** C9. For a saved order without duplicates and a registry without
    duplicates, the reconciled order contains exactly the registry's ids,
    each exactly once: it is a permutation of the registry, without
    duplicates; no unknown saved id survives and no registry id is dropped. *)
Theorem reconcile_permutation_of_registry (s r : list string) :
  NoDup s → NoDup r →
  ListPage.reconcile s r ≡ₚ r
  ∧ NoDup (ListPage.reconcile s r)
  ∧ (∀ x, x ∈ ListPage.reconcile s r → x ∈ r)
  ∧ (∀ x, x ∈ r → x ∈ ListPage.reconcile s r).
Proof.
  intros Hs Hr.
  pose proof (NoDup_reconcile s r Hs Hr) as Hnd.
  split_and!; [|done|intros x; apply elem_of_reconcile..].
  apply NoDup_Permutation; [done..|]. intros x. apply elem_of_reconcile.
Qed.

Lemma reconcile_permutation_of_registry_witness :
  ListPage.reconcile ["name"; "legacy"; "id"]%string
                     ["id"; "name"; "extra.lot"]%string
  ≡ₚ ["id"; "name"; "extra.lot"]%string.
Proof.
  apply (reconcile_permutation_of_registry
           ["name"; "legacy"; "id"]%string ["id"; "name"; "extra.lot"]%string);
    apply (bool_decide_unpack (NoDup _)); vm_compute; exact I.
Defined.

(** ** C4: reordering *)

Section Splice.
Context {A : Type}.
Implicit Types (l : list A) (x : A).

(** Removing one element at an index of the array. *)
Lemma splice_remove_one l (i : Z) x :
  0 ≤ i < Z.of_nat (length l) → l !! Z.to_nat i = Some x →
  Js.splice l i 1 [] = ([x], delete (Z.to_nat i) l).
Proof.
  intros Hi Hx. unfold Js.splice, Js.relativeStart.
  destruct (Z.ltb_spec i 0) as [?|_]; [lia|].
  replace (Z.min i (Z.of_nat (length l))) with i by lia.
  replace (Z.min (Z.max 1 0) (Z.of_nat (length l) - i)) with 1 by lia.
  change (Z.to_nat 1) with 1%nat. f_equal.
  - rewrite <- (take_drop_middle l (Z.to_nat i) x Hx) at 1.
    rewrite drop_app_length'; [done|].
    rewrite length_take_le; [done|lia].
  - rewrite delete_take_drop. simpl. by rewrite Nat.add_1_r.
Qed.

(** Inserting one element at an index up to the length of the array. *)
Lemma splice_insert_one l (j : Z) x :
  0 ≤ j ≤ Z.of_nat (length l) →
  Js.splice l j 0 [x]
  = ([], take (Z.to_nat j) l ++ x :: drop (Z.to_nat j) l).
Proof.
  intros Hj. unfold Js.splice, Js.relativeStart.
  destruct (Z.ltb_spec j 0) as [?|_]; [lia|].
  replace (Z.min j (Z.of_nat (length l))) with j by lia.
  replace (Z.min (Z.max 0 0) (Z.of_nat (length l) - j)) with 0 by lia.
  change (Z.to_nat 0) with 0%nat. by rewrite Nat.add_0_r.
Qed.
End Splice.

Lemma moveColumn_in_range (prev : list (option string)) (i j : Z)
    (x : option string) :
  0 ≤ i < Z.of_nat (length prev) → 0 ≤ j < Z.of_nat (length prev) →
  prev !! Z.to_nat i = Some x →
  ColumnEditor.moveColumn prev i j
  = take (Z.to_nat j) (delete (Z.to_nat i) prev)
    ++ x :: drop (Z.to_nat j) (delete (Z.to_nat i) prev).
Proof.
  intros Hi Hj Hx. unfold ColumnEditor.moveColumn.
  rewrite (splice_remove_one prev i x Hi Hx).
  rewrite splice_insert_one; [done|].
  rewrite length_delete by eauto. lia.
Qed.

(** C4. [moveColumn] removes the element at index [i] and inserts it at index
    [j]: for valid indices ([0 <= i, j < length]) the result is a permutation
    of the input (same multiset, so same members and same length), it holds
    at [j] the element the input held at [i], and with that one element
    taken out the result and the input are the same list. *)
Theorem moveColumn_moves_one (prev : list (option string)) (i j : Z) :
  0 ≤ i < Z.of_nat (length prev) → 0 ≤ j < Z.of_nat (length prev) →
  ColumnEditor.moveColumn prev i j ≡ₚ prev
  ∧ (∀ x, x ∈ ColumnEditor.moveColumn prev i j ↔ x ∈ prev)
  ∧ length (ColumnEditor.moveColumn prev i j) = length prev
  ∧ ColumnEditor.moveColumn prev i j !! Z.to_nat j = prev !! Z.to_nat i
  ∧ delete (Z.to_nat j) (ColumnEditor.moveColumn prev i j)
    = delete (Z.to_nat i) prev.
Proof.
  intros Hi Hj.
  destruct (lookup_lt_is_Some_2 prev (Z.to_nat i)) as [x Hx]; [lia|].
  rewrite (moveColumn_in_range prev i j x Hi Hj Hx).
  set (rest := delete (Z.to_nat i) prev).
  assert (Hlen : length rest = pred (length prev))
    by (unfold rest; rewrite length_delete by eauto; lia).
  assert (Htake : length (take (Z.to_nat j) rest) = Z.to_nat j)
    by (rewrite length_take_le; lia).
  assert (Hperm : take (Z.to_nat j) rest ++ x :: drop (Z.to_nat j) rest
                  ≡ₚ prev).
  { rewrite <- Permutation_middle, take_drop.
    symmetry. by apply delete_Permutation. }
  split_and!.
  - done.
  - intros y. by rewrite Hperm.
  - by rewrite Hperm.
  - rewrite Hx. by apply list_lookup_middle.
  - rewrite <- Htake at 1. rewrite delete_middle. apply take_drop.
Qed.

Lemma moveColumn_moves_one_witness :
  ColumnEditor.moveColumn
    [Some "id"; Some "name"; Some "material"; Some "price"]%string 0 2
  ≡ₚ [Some "id"; Some "name"; Some "material"; Some "price"]%string.
Proof.
  apply (moveColumn_moves_one
           [Some "id"; Some "name"; Some "material"; Some "price"]%string 0 2);
    simpl; lia.
Defined.

(** ** C5: the width map *)

(** Setting a width leaves the entries of the other columns alone. *)
Lemma updateWidth_other (prev : gmap string Js.double) (i j : string)
    (width : option Js.double) :
  i ≠ j → ColumnEditor.updateWidth prev i width !! j = prev !! j.
Proof.
  intros Hne. unfold ColumnEditor.updateWidth. destruct width.
  - by rewrite lookup_insert_ne.
  - by rewrite lookup_delete_ne.
Qed.

(** C5. For every widths map and every column id, the width update with
    [undefined] yields a map with no entry for that id, and with a number [w]
    it yields a map whose entry for that id is [w]. *)
Theorem updateWidth_entry (prev : gmap string Js.double) (i : string) :
  ColumnEditor.updateWidth prev i None !! i = None
  ∧ ∀ w : Js.double, ColumnEditor.updateWidth prev i (Some w) !! i = Some w.
Proof.
  unfold ColumnEditor.updateWidth. split.
  - apply lookup_delete_eq.
  - intros w. apply lookup_insert_eq.
Qed.

(** ** C6: toggling visibility *)

Lemma elem_of_Set_add (s : list string) (x y : string) :
  y ∈ Js.Set_add s x ↔ y ∈ s ∨ y = x.
Proof.
  unfold Js.Set_add. case_decide as Hx.
  - split; [auto|]. intros [?| ->]; done.
  - by rewrite elem_of_app, list_elem_of_singleton.
Qed.

Lemma NoDup_Set_add (s : list string) (x : string) :
  NoDup s → NoDup (Js.Set_add s x).
Proof.
  intros Hs. unfold Js.Set_add. case_decide as Hx; [done|].
  apply NoDup_app. split_and!; [done| |apply NoDup_singleton].
  intros y Hy. rewrite list_elem_of_singleton. by intros ->.
Qed.

Lemma elem_of_Set_delete (s : list string) (x y : string) :
  y ∈ Js.Set_delete s x ↔ y ∈ s ∧ y ≠ x.
Proof. unfold Js.Set_delete. rewrite list_elem_of_filter. tauto. Qed.

(** Copying a set, [new Set(prev)], keeps its members and their order. *)
Lemma Set_new_copy (s : list string) : NoDup s → Js.Set_new s = s.
Proof.
  unfold Js.Set_new.
  assert (Hgen : ∀ acc, NoDup (acc ++ s) → foldl Js.Set_add acc s = acc ++ s).
  { induction s as [|x s IH]; intros acc Hnd; simpl.
    - by rewrite app_nil_r.
    - assert (Hx : x ∉ acc).
      { apply NoDup_app in Hnd as (_ & Hdisj & _).
        intros Hin. apply (Hdisj x Hin). left. }
      unfold Js.Set_add at 2. rewrite decide_False by done.
      rewrite IH by (by rewrite <- app_assoc).
      by rewrite <- app_assoc. }
  intros Hs. by rewrite (Hgen []).
Qed.

Lemma toggleColumn_unfold (s : list string) (i : string) :
  NoDup s →
  ColumnEditor.toggleColumn s i
  = if decide (i ∈ s) then Js.Set_delete s i else Js.Set_add s i.
Proof.
  intros Hs. unfold ColumnEditor.toggleColumn, Js.Set_has.
  rewrite Set_new_copy by done.
  case_bool_decide; case_decide; done.
Qed.

Lemma NoDup_toggleColumn (s : list string) (i : string) :
  NoDup s → NoDup (ColumnEditor.toggleColumn s i).
Proof.
  intros Hs. rewrite toggleColumn_unfold by done. case_decide.
  - by apply NoDup_filter.
  - by apply NoDup_Set_add.
Qed.

(** One toggle flips the membership of [i] and of nothing else. *)
Lemma elem_of_toggleColumn (s : list string) (i x : string) :
  NoDup s →
  x ∈ ColumnEditor.toggleColumn s i
  ↔ (x ∈ s ∧ x ≠ i) ∨ (x = i ∧ i ∉ s).
Proof.
  intros Hs. rewrite toggleColumn_unfold by done. case_decide as Hi.
  - rewrite elem_of_Set_delete. intuition congruence.
  - rewrite elem_of_Set_add.
    destruct (decide (x = i)) as [->|]; intuition congruence.
Qed.

(** C6. For every visibility set and every column id, toggling the same id
    twice returns a set equal to the original: it has the same members, each
    once (as a set, the result is again duplicate-free). *)
Theorem toggleColumn_twice (s : list string) (i : string) :
  NoDup s →
  (∀ x, Js.Set_has (ColumnEditor.toggleColumn
                      (ColumnEditor.toggleColumn s i) i) x
        = Js.Set_has s x)
  ∧ ColumnEditor.toggleColumn (ColumnEditor.toggleColumn s i) i ≡ₚ s
  ∧ NoDup (ColumnEditor.toggleColumn (ColumnEditor.toggleColumn s i) i).
Proof.
  intros Hs.
  pose proof (NoDup_toggleColumn s i Hs) as Hs1.
  pose proof (NoDup_toggleColumn _ i Hs1) as Hs2.
  assert (Hmem : ∀ x,
    x ∈ ColumnEditor.toggleColumn (ColumnEditor.toggleColumn s i) i ↔ x ∈ s).
  { intros x. rewrite !elem_of_toggleColumn by done.
    destruct (decide (x = i)) as [->|]; destruct (decide (i ∈ s));
      intuition congruence. }
  split_and!; [|by apply NoDup_Permutation|done].
  intros x. unfold Js.Set_has. apply bool_decide_ext, Hmem.
Qed.

Lemma toggleColumn_twice_witness :
  ColumnEditor.toggleColumn
    (ColumnEditor.toggleColumn ["id"; "name"; "price"]%string "name") "name"
  ≡ₚ ["id"; "name"; "price"]%string.
Proof.
  apply (toggleColumn_twice ["id"; "name"; "price"]%string "name").
  apply (bool_decide_unpack (NoDup _)); vm_compute; exact I.
Defined.

(** Toggling an absent id twice gives back the very same insertion order; for
    a present id the members come back but the id moves to the end of the
    insertion order, which is the order [Array.from] reads. *)
Lemma toggle_absent_twice_same_order (s : list string) (i : string) :
  NoDup s → i ∉ s →
  ColumnEditor.toggleColumn (ColumnEditor.toggleColumn s i) i = s.
Proof.
  intros Hs Hi.
  rewrite (toggleColumn_unfold (ColumnEditor.toggleColumn s i))
    by (by apply NoDup_toggleColumn).
  rewrite (toggleColumn_unfold s) by done.
  rewrite (decide_False (P := i ∈ s)) by done.
  rewrite decide_True by (apply elem_of_Set_add; by right).
  unfold Js.Set_add, Js.Set_delete. rewrite decide_False by done.
  rewrite filter_app, filter_all by (intros x Hx ->; done).
  rewrite filter_cons_False by (intros Hne; by apply Hne).
  by rewrite filter_nil, app_nil_r.
Qed.

Example toggle_present_twice_moves_last :
  Js.Array_from
    (ColumnEditor.toggleColumn
       (ColumnEditor.toggleColumn ["id"; "name"; "price"]%string "name") "name")
  = ["id"; "price"; "name"]%string.
Proof. vm_compute. reflexivity. Qed.

(** ** C7: what the dialog emits on confirm *)

(** Only a confirm makes the dialog call [onApply]. *)
Lemma handle_applies_only_on_Ok (columns : list ColumnEditor.ColumnEditorColumn)
    (st : ColumnEditor.State) (ev : ColumnEditor.Event) :
  ev ≠ ColumnEditor.Ok → applied (ColumnEditor.handle columns st ev).2 = [].
Proof.
  intros Hev. by destruct ev.
Qed.

(** C7. On confirm the dialog makes exactly one call on its parent, an
    [onApply] whose single argument carries the three pieces of layout state
    together: the working order reconciled against the current registry (the
    ids of [columns]), the visibility set and the width map; the state of the
    dialog is left as it is. The page takes the three over in one step (and
    closes the dialog), and no other user action makes the dialog emit. *)
Theorem onOk_emits_whole_layout (columns : list ColumnEditor.ColumnEditorColumn)
    (st : ColumnEditor.State) (p : ListPage.PageState) :
  let nextState :=
    {| ColumnEditor.columnOrder :=
         reconcile_spec (slotIds (ColumnEditor.order st))
                        (ColumnEditor.id <$> columns);
       ColumnEditor.showColumns :=
         Js.Array_from (ColumnEditor.visibleColumns st);
       ColumnEditor.columnWidths := ColumnEditor.widths st |} in
  ColumnEditor.handle columns st ColumnEditor.Ok
  = (st, [ColumnEditor.onApply nextState])
  ∧ ListPage.receive p (ColumnEditor.handle columns st ColumnEditor.Ok).2
    = {| ListPage.showColumns := ColumnEditor.showColumns nextState;
         ListPage.columnOrder := ColumnEditor.columnOrder nextState;
         ListPage.columnWidths := ColumnEditor.columnWidths nextState;
         ListPage.editColumnsOpen := false |}
  ∧ (∀ ev, ev ≠ ColumnEditor.Ok →
       applied (ColumnEditor.handle columns st ev).2 = []).
Proof.
  intros nextState.
  assert (Hok : ColumnEditor.handle columns st ColumnEditor.Ok
                = (st, [ColumnEditor.onApply nextState])).
  { unfold nextState. simpl. unfold ColumnEditor.onOk.
    by rewrite resolvedOrder_reconcile, reconcile_eq_spec. }
  split_and!; [done|by rewrite Hok|].
  intros ev. apply handle_applies_only_on_Ok.
Qed.

(** Over a whole run of user actions the dialog emits once per confirm. *)
Lemma run_applies_once_per_Ok (columns : list ColumnEditor.ColumnEditorColumn)
    (evs : list ColumnEditor.Event) (st : ColumnEditor.State) :
  length (applied (ColumnEditor.run columns st evs).2)
  = length (confirms evs).
Proof.
  revert st. induction evs as [|ev evs IH]; intros st; [done|].
  simpl.
  destruct (ColumnEditor.handle columns st ev) as [st' calls] eqn:Hh.
  specialize (IH st').
  destruct (ColumnEditor.run columns st' evs) as [st'' calls'].
  simpl in IH. simpl. unfold applied. rewrite omap_app, length_app.
  fold (applied calls) (applied calls'). rewrite IH.
  destruct ev; simpl in Hh; injection Hh as <- <-; done.
Qed.

(** ** Double arithmetic *)

Lemma roundToMultiple_cases (a P q r : Z) :
  0 < P → a = P * q + r → 0 ≤ r < P →
  let n := match 2 * r ?= P with
           | Lt => q
           | Gt => q + 1
           | Eq => if Z.even q then q else q + 1
           end in
  q ≤ n ≤ q + 1 ∧ 2 * (n * P) ≤ 2 * a + P ∧ 2 * a ≤ 2 * (n * P) + P.
Proof.
  intros HP Ha Hr n. unfold n.
  destruct (Z.compare_spec (2 * r) P); [destruct (Z.even q)|..]; nia.
Qed.

Lemma roundToMultiple_unfold (a k : Z) :
  0 ≤ k →
  ∃ q r, a = 2 ^ k * q + r ∧ 0 ≤ r < 2 ^ k
         ∧ Js.roundToMultiple a k
           = match 2 * r ?= 2 ^ k with
             | Lt => q
             | Gt => q + 1
             | Eq => if Z.even q then q else q + 1
             end.
Proof.
  intros Hk. assert (HP : 0 < 2 ^ k) by (by apply Z.pow_pos_nonneg).
  exists (a / 2 ^ k), (a mod 2 ^ k).
  split; [apply Z.div_mod; lia|].
  split; [by apply Z.mod_pos_bound|reflexivity].
Qed.

(** The rounded multiple is within half a step of the exact value. *)
Lemma roundToMultiple_near (a k : Z) :
  0 ≤ k →
  2 * (Js.roundToMultiple a k * 2 ^ k) ≤ 2 * a + 2 ^ k
  ∧ 2 * a ≤ 2 * (Js.roundToMultiple a k * 2 ^ k) + 2 ^ k.
Proof.
  intros Hk.
  destruct (roundToMultiple_unfold a k Hk) as (q & r & Ha & Hr & ->).
  assert (HP : 0 < 2 ^ k) by (by apply Z.pow_pos_nonneg).
  pose proof (roundToMultiple_cases a (2 ^ k) q r HP Ha Hr) as H.
  cbv zeta in H. destruct H as (_ & H1 & H2). by split.
Qed.

(** A multiple is kept. *)
Lemma roundToMultiple_exact (m k : Z) :
  0 ≤ k → Js.roundToMultiple (m * 2 ^ k) k = m.
Proof.
  intros Hk. assert (HP : 0 < 2 ^ k) by (by apply Z.pow_pos_nonneg).
  unfold Js.roundToMultiple. rewrite Z.mod_mul, Z.div_mul by lia.
  cbv zeta. change (2 * 0) with 0.
  destruct (Z.compare_spec 0 (2 ^ k)) as [Hc|Hc|Hc]; [lia|done|lia].
Qed.

Lemma roundToMultiple_mono (a b k : Z) :
  0 ≤ k → a ≤ b → Js.roundToMultiple a k ≤ Js.roundToMultiple b k.
Proof.
  intros Hk Hab. assert (HP : 0 < 2 ^ k) by (by apply Z.pow_pos_nonneg).
  destruct (roundToMultiple_unfold a k Hk) as (qa & ra & Ha & Hra & ->).
  destruct (roundToMultiple_unfold b k Hk) as (qb & rb & Hb & Hrb & ->).
  pose proof (roundToMultiple_cases a _ qa ra HP Ha Hra) as Hsa.
  pose proof (roundToMultiple_cases b _ qb rb HP Hb Hrb) as Hsb.
  cbv zeta in Hsa, Hsb.
  destruct (Z_lt_le_dec qa qb) as [Hlt|Hge]; [lia|].
  assert (qa = qb) by nia. subst qb. assert (ra ≤ rb) by lia.
  destruct (Z.compare_spec (2 * ra) (2 ^ k)),
           (Z.compare_spec (2 * rb) (2 ^ k));
    destruct (Z.even qa); lia.
Qed.

Lemma dropped_nonneg (a : Z) : 0 ≤ Js.dropped a.
Proof. unfold Js.dropped. lia. Qed.

Lemma dropped_mono (a b : Z) : a ≤ b → Js.dropped a ≤ Js.dropped b.
Proof.
  intros H. unfold Js.dropped. pose proof (Z.log2_le_mono a b H). lia.
Qed.

(** Below [2^j] at most [j - 53] bits are dropped. *)
Lemma dropped_below (a j : Z) : 0 ≤ a < 2 ^ j → 53 ≤ j → Js.dropped a ≤ j - 53.
Proof.
  intros Ha Hj. unfold Js.dropped.
  destruct (Z.eq_dec a 0) as [->|Hne]; [simpl; lia|].
  assert (Z.log2 a < j) by (apply Z.log2_lt_pow2; lia). lia.
Qed.

Lemma pow2_split (j k : Z) : 0 ≤ k ≤ j → 2 ^ j = 2 ^ (j - k) * 2 ^ k.
Proof. intros H. rewrite <- Z.pow_add_r by lia. f_equal. lia. Qed.

Lemma nearest53_near (a : Z) :
  2 * Js.nearest53 a ≤ 2 * a + 2 ^ Js.dropped a
  ∧ 2 * a ≤ 2 * Js.nearest53 a + 2 ^ Js.dropped a.
Proof. apply roundToMultiple_near, dropped_nonneg. Qed.

(** A magnitude that has no bit among the dropped ones is kept. *)
Lemma nearest53_exact (m k : Z) :
  Js.dropped (m * 2 ^ k) ≤ k → Js.nearest53 (m * 2 ^ k) = m * 2 ^ k.
Proof.
  intros Hk. unfold Js.nearest53.
  pose proof (dropped_nonneg (m * 2 ^ k)) as Hd.
  set (d := Js.dropped (m * 2 ^ k)) in *.
  rewrite (pow2_split k d) by lia.
  by rewrite Z.mul_assoc, roundToMultiple_exact by lia.
Qed.

Lemma nearest53_pow2 (j : Z) : 0 ≤ j → Js.nearest53 (2 ^ j) = 2 ^ j.
Proof.
  intros Hj. rewrite <- (Z.mul_1_l (2 ^ j)). apply nearest53_exact.
  rewrite Z.mul_1_l. unfold Js.dropped. rewrite Z.log2_pow2 by done. lia.
Qed.

Lemma nearest53_nonneg (a : Z) : 0 ≤ a → 0 ≤ Js.nearest53 a.
Proof.
  intros Ha. pose proof (nearest53_near a) as [_ Hn].
  pose proof (dropped_nonneg a) as Hd.
  unfold Js.nearest53 in *.
  assert (HP : 0 < 2 ^ Js.dropped a) by (by apply Z.pow_pos_nonneg).
  destruct (Z_lt_le_dec (Js.roundToMultiple a (Js.dropped a)) 0); nia.
Qed.

Lemma nearest53_le_pow2 (a j : Z) :
  0 ≤ a → 0 ≤ j → a ≤ 2 ^ j → Js.nearest53 a ≤ 2 ^ j.
Proof.
  intros Ha Hj Haj.
  assert (Hd : 0 ≤ Js.dropped a ≤ j).
  { split; [apply dropped_nonneg|]. unfold Js.dropped.
    assert (Z.log2 a ≤ j); [|lia].
    rewrite <- (Z.log2_pow2 j) by done. by apply Z.log2_le_mono. }
  unfold Js.nearest53.
  assert (HP : 0 < 2 ^ Js.dropped a) by (apply Z.pow_pos_nonneg; lia).
  pose proof (roundToMultiple_mono a (2 ^ j) _ (proj1 Hd) Haj) as Hm.
  rewrite (pow2_split j (Js.dropped a)) in Hm |- * by done.
  rewrite roundToMultiple_exact in Hm by lia. nia.
Qed.

Lemma nearest53_ge_pow2 (a j : Z) :
  0 ≤ j → 2 ^ j ≤ a → j ≤ Z.log2 a → 2 ^ j ≤ Js.nearest53 a.
Proof.
  intros Hj Haj Hlog. assert (0 < 2 ^ j) by (by apply Z.pow_pos_nonneg).
  assert (Hd : 0 ≤ Js.dropped a ≤ Z.log2 a) by (unfold Js.dropped; lia).
  destruct (Z.log2_spec a) as [Hlo _]; [lia|].
  transitivity (2 ^ Z.log2 a); [apply Z.pow_le_mono_r; lia|].
  unfold Js.nearest53.
  assert (HP : 0 < 2 ^ Js.dropped a) by (apply Z.pow_pos_nonneg; lia).
  pose proof (roundToMultiple_mono (2 ^ Z.log2 a) a _ (proj1 Hd) Hlo) as Hm.
  rewrite (pow2_split (Z.log2 a) (Js.dropped a)) in Hm |- * by done.
  rewrite roundToMultiple_exact in Hm by lia. nia.
Qed.

(** Rounding to 53 bits is monotone. *)
Lemma nearest53_mono (a b : Z) :
  0 ≤ a → a ≤ b → Js.nearest53 a ≤ Js.nearest53 b.
Proof.
  intros Ha Hab.
  destruct (Z.eq_dec a 0) as [->|Hne].
  { change (Js.nearest53 0) with 0. apply nearest53_nonneg. lia. }
  pose proof (dropped_mono a b Hab) as Hd.
  pose proof (dropped_nonneg a) as Hda.
  destruct (Z.eq_dec (Js.dropped a) (Js.dropped b)) as [Heq|Hneq].
  - unfold Js.nearest53. rewrite <- Heq.
    assert (0 < 2 ^ Js.dropped a) by (by apply Z.pow_pos_nonneg).
    pose proof (roundToMultiple_mono a b (Js.dropped a) Hda Hab). nia.
  - assert (Hlog : Z.log2 a < Z.log2 b) by (unfold Js.dropped in *; lia).
    pose proof (Z.log2_nonneg a) as Hla.
    destruct (Z.log2_spec a) as [_ Hahi]; [lia|].
    destruct (Z.log2_spec b) as [Hblo _]; [lia|].
    transitivity (2 ^ Z.succ (Z.log2 a)).
    + apply nearest53_le_pow2; lia.
    + transitivity (2 ^ Z.log2 b).
      * apply Z.pow_le_mono_r; lia.
      * apply nearest53_ge_pow2; [lia|done|lia].
Qed.

(** *** [round64] *)

Lemma round64_unfold (exact : Z) :
  Js.round64 exact
  = if 2 ^ 2098 <=? Js.nearest53 (Z.abs exact)
    then Js.Infinity (exact <? 0)
    else Js.Finite (Z.sgn exact * Js.nearest53 (Z.abs exact)).
Proof. reflexivity. Qed.

(** A value of at most 53 significant bits below the overflow threshold is a
    double: rounding keeps it. *)
Lemma round64_exact (m j : Z) :
  Z.abs m < 2 ^ 53 → 0 ≤ j → Z.abs m * 2 ^ j < 2 ^ 2098 →
  Js.round64 (m * 2 ^ j) = Js.Finite (m * 2 ^ j).
Proof.
  intros Hm Hj Hbound. rewrite round64_unfold.
  assert (HP : 0 < 2 ^ j) by (by apply Z.pow_pos_nonneg).
  assert (Habs : Z.abs (m * 2 ^ j) = Z.abs m * 2 ^ j)
    by (rewrite Z.abs_mul, (Z.abs_eq (2 ^ j)); lia).
  rewrite Habs, nearest53_exact.
  - destruct (Z.leb_spec (2 ^ 2098) (Z.abs m * 2 ^ j)); [lia|].
    f_equal. rewrite Z.sgn_mul, (Z.sgn_pos (2 ^ j)) by done.
    rewrite Z.mul_1_r, Z.mul_assoc. f_equal.
    rewrite Z.mul_comm. apply Z.abs_sgn.
  - unfold Js.dropped.
    destruct (Z.eq_dec m 0) as [->|Hne]; [simpl; lia|].
    rewrite Z.log2_mul_pow2 by lia.
    assert (Z.log2 (Z.abs m) < 53) by (apply Z.log2_lt_pow2; lia). lia.
Qed.

(** Below [2^j] the rounded value is finite, stays within [2^j], and is
    within [2^(j-54)] of the exact one. *)
Lemma round64_near (exact j : Z) :
  Z.abs exact < 2 ^ j → 53 ≤ j ≤ 2097 →
  ∃ r, Js.round64 exact = Js.Finite r
       ∧ Z.abs r ≤ 2 ^ j
       ∧ 2 * Z.abs (r - exact) ≤ 2 ^ (j - 53).
Proof.
  intros Ha Hj. rewrite round64_unfold.
  set (a := Z.abs exact) in *. assert (0 ≤ a) by apply Z.abs_nonneg.
  pose proof (nearest53_le_pow2 a j) as Hle.
  pose proof (nearest53_nonneg a) as Hnn.
  pose proof (nearest53_near a) as [Hn1 Hn2].
  pose proof (dropped_below a j) as Hd.
  assert (Hpow : 2 ^ Js.dropped a ≤ 2 ^ (j - 53))
    by (apply Z.pow_le_mono_r; lia).
  assert (Hj' : 2 ^ j < 2 ^ 2098) by (apply Z.pow_lt_mono_r; lia).
  destruct (Z.leb_spec (2 ^ 2098) (Js.nearest53 a)); [lia|].
  eexists. split; [done|].
  unfold a in *. destruct (Z.abs_spec exact) as [[? Habs]|[? Habs]];
    rewrite Habs in *.
  - destruct (Z.eq_dec exact 0) as [->|?].
    + change (Js.nearest53 0) with 0 in *. simpl. lia.
    + rewrite Z.sgn_pos by lia. lia.
  - rewrite Z.sgn_neg by lia. lia.
Qed.

Lemma round64_cases (exact : Z) :
  (0 ≤ exact ∧
   (Js.round64 exact = Js.Infinity false ∧ 2 ^ 2098 ≤ Js.nearest53 exact
    ∨ Js.round64 exact = Js.Finite (Js.nearest53 exact)
      ∧ Js.nearest53 exact < 2 ^ 2098))
  ∨ (exact < 0 ∧
     (Js.round64 exact = Js.Infinity true ∧ 2 ^ 2098 ≤ Js.nearest53 (- exact)
      ∨ Js.round64 exact = Js.Finite (- Js.nearest53 (- exact))
        ∧ Js.nearest53 (- exact) < 2 ^ 2098)).
Proof.
  rewrite round64_unfold.
  destruct (Z_lt_le_dec exact 0) as [Hneg|Hpos]; [right|left]; (split; [done|]).
  - rewrite Z.abs_neq, Z.sgn_neg by lia.
    destruct (Z.ltb_spec exact 0); [|lia].
    destruct (Z.leb_spec (2 ^ 2098) (Js.nearest53 (- exact))); [by left|].
    right. split; [f_equal; lia|done].
  - rewrite Z.abs_eq by lia.
    destruct (Z.ltb_spec exact 0); [lia|].
    destruct (Z.leb_spec (2 ^ 2098) (Js.nearest53 exact)); [by left|].
    right. split; [|done]. f_equal.
    destruct (Z.eq_dec exact 0) as [->|?]; [reflexivity|].
    rewrite Z.sgn_pos by lia. lia.
Qed.

(** Rounding to the nearest double is monotone. *)
Lemma round64_mono (a b : Z) :
  a ≤ b → Js.le (Js.round64 a) (Js.round64 b) = true.
Proof.
  intros Hab.
  destruct (round64_cases a) as [[Ha [[-> Hra]|[-> Hra]]]|[Ha [[-> Hra]|[-> Hra]]]];
  destruct (round64_cases b) as [[Hb [[-> Hrb]|[-> Hrb]]]|[Hb [[-> Hrb]|[-> Hrb]]]];
    simpl; try done; try lia.
  - pose proof (nearest53_mono a b Ha Hab). lia.
  - pose proof (nearest53_mono a b Ha Hab). apply Z.leb_le. lia.
  - pose proof (nearest53_nonneg (- a)). pose proof (nearest53_nonneg b).
    apply Z.leb_le. lia.
  - pose proof (nearest53_mono (- b) (- a)). lia.
  - pose proof (nearest53_mono (- b) (- a)). apply Z.leb_le. lia.
Qed.

(** *** Sums and differences of whole numbers *)



(** *** [Math.max] and [Math.round] *)

Lemma Math_max_finite (a b : Z) :
  Js.Math_max (Js.Finite a) (Js.Finite b) = Js.Finite (Z.max a b).
Proof.
  unfold Js.Math_max, Js.lt. destruct (Z.ltb_spec a b); f_equal; lia.
Qed.

(** [Math.round] of a finite number is the integer [n] with
    [n - 1/2 <= x < n + 1/2]. *)
Lemma Math_round_nearest (a n : Z) :
  n * 2 ^ 1074 - 2 ^ 1073 ≤ a < n * 2 ^ 1074 + 2 ^ 1073 →
  Js.Math_round (Js.Finite a) = Js.double_of_Z n.
Proof.
  intros Ha. unfold Js.Math_round, Js.double_of_Z. do 2 f_equal.
  assert (HU : 2 ^ 1074 = 2 * 2 ^ 1073) by (by rewrite <- Z.pow_succ_r).
  assert (0 < 2 ^ 1073) by (by apply Z.pow_pos_nonneg).
  symmetry. apply (Z.div_unique _ _ n (a + 2 ^ 1073 - n * 2 ^ 1074)); lia.
Qed.

Lemma Math_round_integer (n : Z) :
  Js.Math_round (Js.double_of_Z n) = Js.double_of_Z n.
Proof.
  apply Math_round_nearest.
  assert (0 < 2 ^ 1073) by (by apply Z.pow_pos_nonneg). lia.
Qed.


(** ** C8 and C10: the resize handle *)

(** The entry a mouse move writes, and the entries it leaves alone. *)
Lemma onMouseMove_written (d : ListPage.ResizeDrag) (clientX : Js.double)
    (prev : gmap string Js.double) :
  ListPage.onMouseMove d clientX prev !! ListPage.columnId d
  = Some (Js.Math_round
            (Js.Math_max (Js.double_of_Z 60)
               (Js.sub (Js.add (ListPage.startWidth d) clientX)
                       (ListPage.startX d)))).
Proof. unfold ListPage.onMouseMove. apply lookup_insert_eq. Qed.

Lemma onMouseMove_other (d : ListPage.ResizeDrag) (clientX : Js.double)
    (prev : gmap string Js.double) (other : string) :
  other ≠ ListPage.columnId d →
  ListPage.onMouseMove d clientX prev !! other = prev !! other.
Proof. intros Hne. unfold ListPage.onMouseMove. by rewrite lookup_insert_ne. Qed.










(** During a drag every mouse move computes the width from the values
    captured at [mousedown], so the last move decides the stored width. *)
Lemma drag_last_move (d : ListPage.ResizeDrag) (moves : list Js.double)
    (clientX : Js.double) (prev : gmap string Js.double) :
  ListPage.drag d (moves ++ [clientX]) prev
  = ListPage.onMouseMove d clientX (ListPage.drag d moves prev).
Proof. unfold ListPage.drag. by rewrite foldl_app. Qed.

(** A drag touches no entry but the dragged column's. *)
Lemma drag_other (d : ListPage.ResizeDrag) (moves : list Js.double)
    (prev : gmap string Js.double) (other : string) :
  other ≠ ListPage.columnId d →
  ListPage.drag d moves prev !! other = prev !! other.
Proof.
  intros Hne. revert prev. unfold ListPage.drag.
  induction moves as [|x moves IH]; intros prev; [done|].
  simpl. rewrite IH. by apply onMouseMove_other.
Qed.

(** ** The definitions on concrete inputs *)

Example reconcile_drops_unknown_appends_new :
  ListPage.reconcile ["name"; "legacy"; "id"]%string
                     ["id"; "name"; "extra.lot"]%string
  = ["name"; "id"; "extra.lot"]%string.
Proof. vm_compute. reflexivity. Qed.

Example resolvedOrder_skips_undefined :
  ColumnEditor.resolvedOrder
    [ {| ColumnEditor.id := "id"; ColumnEditor.label := "ID" |};
      {| ColumnEditor.id := "name"; ColumnEditor.label := "Name" |} ]%string
    [Some "legacy"; None; Some "name"]%string
  = ["name"; "id"]%string.
Proof. vm_compute. reflexivity. Qed.

Example moveColumn_forward :
  ColumnEditor.moveColumn [Some "a"; Some "b"; Some "c"]%string 0 2
  = [Some "b"; Some "c"; Some "a"]%string.
Proof. reflexivity. Qed.

Example moveColumn_backward :
  ColumnEditor.moveColumn [Some "a"; Some "b"; Some "c"]%string 2 0
  = [Some "c"; Some "a"; Some "b"]%string.
Proof. reflexivity. Qed.

(** Out of range, [splice] removes nothing and [undefined] is inserted. *)
Example moveColumn_drag_out_of_range :
  ColumnEditor.moveColumn [Some "a"; Some "b"; Some "c"]%string 5 1
  = [Some "a"; None; Some "b"; Some "c"]%string.
Proof. reflexivity. Qed.

(** A negative drag index counts from the end of the array. *)
Example moveColumn_negative_index :
  ColumnEditor.moveColumn [Some "a"; Some "b"; Some "c"]%string (-1) 0
  = [Some "c"; Some "a"; Some "b"]%string.
Proof. reflexivity. Qed.

(** [Math.round] rounds a half towards +infinity: 2.5 gives 3, -2.5 gives
    -2, 2.4 gives 2. *)
Example Math_round_half_up :
  Js.Math_round (Js.dyadic 5 (-1)) = Js.double_of_Z 3
  ∧ Js.Math_round (Js.dyadic (-5) (-1)) = Js.double_of_Z (-2)
  ∧ Js.Math_round (Js.dyadic 19 (-3)) = Js.double_of_Z 2.
Proof. vm_compute. split_and!; reflexivity. Qed.

Example resize_clamped :
  ListPage.onMouseMove
    (ListPage.handleResizeStart ∅ "name" (Js.double_of_Z 200)
       (Some (Js.dyadic 1001 (-3)))) (Js.double_of_Z 100) ∅
  !! "name"%string
  = Some (Js.double_of_Z 60).
Proof. vm_compute. reflexivity. Qed.

Example resize_grows :
  ListPage.onMouseMove
    (ListPage.handleResizeStart ∅ "name" (Js.double_of_Z 200)
       (Some (Js.dyadic 1001 (-3)))) (Js.double_of_Z 250) ∅
  !! "name"%string
  = Some (Js.double_of_Z 175).
Proof. vm_compute. reflexivity. Qed.

(** The doubles nearest to 0.1 and 0.6, and the sums the code computes with
    them: from width 100, pressed at 0.1 and moved to 0.6, it stores 101
    (the exact sum is just below 100.5); 2^53 + 1 is 2^53; NaN and
    +Infinity are stored as they are. *)
Example double_arithmetic :
  let tenth := Js.dyadic 3602879701896397 (-55) in
  let sixTenths := Js.dyadic 5404319552844595 (-53) in
  Js.Math_round
    (Js.Math_max (Js.double_of_Z 60)
       (Js.sub (Js.add (Js.double_of_Z 100) sixTenths) tenth))
  = Js.double_of_Z 101
  ∧ Js.add (Js.double_of_Z (2 ^ 53)) (Js.double_of_Z 1)
    = Js.double_of_Z (2 ^ 53)
  ∧ Js.sub (Js.add (Js.double_of_Z (2 ^ 53)) (Js.double_of_Z 1))
           (Js.double_of_Z 1)
    = Js.double_of_Z (2 ^ 53 - 1)
  ∧ Js.Math_round (Js.Math_max (Js.double_of_Z 60) Js.NaN) = Js.NaN
  ∧ Js.Math_round (Js.Math_max (Js.double_of_Z 60) (Js.Infinity false))
    = Js.Infinity false
  ∧ Js.add (Js.dyadic (2 ^ 53 - 1) 971) (Js.dyadic 1 970) = Js.Infinity false.
Proof. vm_compute. split_and!; reflexivity. Qed.

(** [Js.add] and [Js.sub] against the Standard Library's specification of
    IEEE 754 binary64 addition and subtraction, on pairs of every kind:
    integers, fractions, ties, subnormal numbers, the largest doubles, the
    infinities and NaN. *)
Example add_sub_agree_with_SpecFloat :
  let tenth := Js.dyadic 3602879701896397 (-55) in
  let sixTenths := Js.dyadic 5404319552844595 (-53) in
  let largest := Js.dyadic (2 ^ 53 - 1) 971 in
  let pairs :=
    [ (Js.double_of_Z 100, sixTenths);
      (Js.add (Js.double_of_Z 100) sixTenths, tenth);
      (Js.double_of_Z (2 ^ 53), Js.double_of_Z 1);
      (Js.double_of_Z (2 ^ 53 + 2), Js.double_of_Z 1);
      (Js.dyadic (161 * 2 ^ 45 - 1) (-46), Js.double_of_Z 1000);
      (Js.dyadic 2161 (-1), Js.double_of_Z 1000);
      (Js.double_of_Z 60, Js.double_of_Z (-1000));
      (Js.double_of_Z 1, Js.double_of_Z 1);
      (Js.double_of_Z 0, Js.double_of_Z 0);
      (Js.dyadic 1 (-1074), Js.dyadic 1 (-1074));
      (Js.dyadic (2 ^ 53 - 1) (-1074), Js.dyadic 1 (-1074));
      (Js.double_of_Z 1, Js.dyadic 1 (-1074));
      (largest, Js.dyadic 1 970);
      (largest, Js.dyadic 1 969);
      (Js.neg largest, Js.dyadic 1 970);
      (largest, largest);
      (Js.Infinity false, Js.Infinity false);
      (Js.Infinity false, Js.Infinity true);
      (Js.Infinity true, Js.double_of_Z 1);
      (Js.double_of_Z 1, Js.Infinity false);
      (Js.NaN, Js.double_of_Z 1);
      (Js.Infinity false, Js.NaN) ] in
  forallb (λ '(x, y),
    bool_decide
      (Js.of_spec (SpecFloat.SFadd 53 1024 (Js.to_spec x) (Js.to_spec y))
       = Js.add x y)
    && bool_decide
         (Js.of_spec (SpecFloat.SFsub 53 1024 (Js.to_spec x) (Js.to_spec y))
          = Js.sub x y)
    && bool_decide (Js.of_spec (Js.to_spec x) = x)
    && bool_decide (Js.of_spec (Js.to_spec y) = y)) pairs
  = true.
Proof. vm_compute. reflexivity. Qed.

(** * Further properties of the pages and of the dialog *)

(** ** The registry and the reconciled order *)

(** X1. When ids are added to the registry (new custom fields), wherever
    they are added, reconciling an order that held exactly the old
    registry's ids keeps that order as it is and appends the new ids after
    it, in the order the new registry has them. *)
Theorem reconcile_registry_grows (o r r' : list string) :
  (∀ x, x ∈ o ↔ x ∈ r) →
  (∀ x, x ∈ r → x ∈ r') →
  ListPage.reconcile o r' = o ++ filter (λ x, x ∉ r) r'.
Proof.
  intros Ho Hsub. rewrite reconcile_eq_spec. unfold reconcile_spec.
  rewrite (filter_all _ o) by (intros x Hx; by apply Hsub, Ho).
  f_equal. apply filter_agree. intros x _. by rewrite Ho.
Qed.

Lemma reconcile_registry_grows_witness :
  ListPage.reconcile ["name"; "id"]%string
    ["extra.a"; "id"; "extra.b"; "name"; "extra.c"]%string
  = ["name"; "id"]%string
    ++ filter (λ x, x ∉ ["id"; "name"]%string)
         ["extra.a"; "id"; "extra.b"; "name"; "extra.c"]%string.
Proof.
  apply (reconcile_registry_grows ["name"; "id"]%string
           ["id"; "name"]%string).
  - intros x. rewrite !elem_of_cons, !elem_of_nil. tauto.
  - intros x. rewrite !elem_of_cons, !elem_of_nil. tauto.
Defined.

Example reconcile_registry_grows_anywhere :
  ListPage.reconcile ["name"; "id"]%string
    ["extra.a"; "id"; "extra.b"; "name"; "extra.c"]%string
  = ["name"; "id"; "extra.a"; "extra.b"; "extra.c"]%string.
Proof. vm_compute. reflexivity. Qed.

(** X2. When columns leave the registry (custom fields deleted), reconciling a
    reconciled order removes exactly them and keeps the order of the rest. *)
Theorem reconcile_registry_shrinks (P : string → Prop)
    `{!∀ x, Decision (P x)} (o r : list string) :
  (∀ x, x ∈ o ↔ x ∈ r) →
  ListPage.reconcile o (filter P r) = filter P o.
Proof.
  intros Ho. rewrite reconcile_eq_spec. unfold reconcile_spec.
  rewrite (filter_none _ (filter P r)), app_nil_r.
  - apply filter_agree. intros x Hx. rewrite list_elem_of_filter.
    apply Ho in Hx. tauto.
  - intros x Hx Hxo. apply list_elem_of_filter in Hx as [_ Hx].
    apply Hxo. by apply Ho.
Qed.

Lemma reconcile_registry_shrinks_witness :
  ListPage.reconcile ["extra.lot"; "name"; "id"]%string
    (filter (λ x, x ≠ "extra.lot"%string) ["id"; "name"; "extra.lot"]%string)
  = filter (λ x, x ≠ "extra.lot"%string) ["extra.lot"; "name"; "id"]%string.
Proof.
  apply (reconcile_registry_shrinks (λ x, x ≠ "extra.lot"%string)).
  intros x. rewrite !elem_of_cons, !elem_of_nil. tauto.
Defined.

(** *** Strings *)

Lemma String_prefix_append (p s : string) : String.prefix p (p +:+ s) = true.
Proof.
  induction p as [|c p IH]; simpl; [by destruct s|].
  destruct (Ascii.ascii_dec c c); [exact IH|done].
Qed.

Lemma String_append_inj (p a b : string) : p +:+ a = p +:+ b → a = b.
Proof. induction p as [|c p IH]; simpl; [done|]. intros [= ?]. auto. Qed.

(** *** The registry of a page *)

(** X3. The registry of a page has no duplicate id when the page's own columns
    have none and do not start with ["extra."], and the custom fields have
    distinct keys. *)
Theorem registry_NoDup (allColumns : list string) (data : list ListPage.Field.t) :
  NoDup allColumns →
  (∀ x, x ∈ allColumns → Js.String_startsWith x "extra." = false) →
  NoDup (ListPage.Field.key <$> data) →
  NoDup (ListPage.allColumnsWithExtraFields allColumns (Some data)).
Proof.
  intros Hall Hbase Hkeys. unfold ListPage.allColumnsWithExtraFields.
  apply NoDup_app. split_and!; [done| |].
  - intros x Hx Hextra. apply list_elem_of_fmap in Hextra as (f & -> & _).
    specialize (Hbase _ Hx). unfold Js.String_startsWith in Hbase.
    by rewrite String_prefix_append in Hbase.
  - rewrite (list_fmap_compose ListPage.Field.key (λ k, "extra." +:+ k)) .
    apply NoDup_fmap_2; [|done]. intros a b. apply String_append_inj.
Qed.

Lemma registry_NoDup_witness :
  NoDup (ListPage.allColumnsWithExtraFields ["id"; "name"]%string
           (Some [ {| ListPage.Field.key := "lot";
                      ListPage.Field.name := "Lot number" |} ]%string)).
Proof.
  apply registry_NoDup.
  - apply (bool_decide_unpack (NoDup _)); vm_compute; exact I.
  - intros x. rewrite !elem_of_cons, elem_of_nil.
    intros [->|[->|[]]]; reflexivity.
  - apply (bool_decide_unpack (NoDup _)); vm_compute; exact I.
Defined.

(** *** The columns a page hands to the dialog *)

Lemma columnOptions_ids (t i18nKey : string → string) (registry : list string)
    (data : option (list ListPage.Field.t)) :
  ColumnEditor.id <$> ListPage.columnOptions t i18nKey registry data
  = registry.
Proof.
  unfold ListPage.columnOptions. rewrite <- list_fmap_compose.
  induction registry as [|c registry IH]; [done|].
  rewrite fmap_cons, IH. f_equal. simpl.
  by destruct (Js.String_startsWith c "extra.").
Qed.

Lemma field_of_key (data : list ListPage.Field.t) (f g : ListPage.Field.t) :
  NoDup (ListPage.Field.key <$> data) → f ∈ data → g ∈ data →
  ListPage.Field.key f = ListPage.Field.key g → f = g.
Proof.
  induction data as [|d data IH]; intros Hnd Hf Hg Hk.
  - by apply elem_of_nil in Hf.
  - rewrite fmap_cons in Hnd. apply NoDup_cons in Hnd as [Hd Hnd].
    apply elem_of_cons in Hf as [->|Hf]; apply elem_of_cons in Hg as [->|Hg].
    + done.
    + exfalso. apply Hd. rewrite Hk. by apply list_elem_of_fmap_2.
    + exfalso. apply Hd. rewrite <- Hk. by apply list_elem_of_fmap_2.
    + by apply IH.
Qed.

(** X4. The columns the dialog is given for a page: one per column of the page,
    labelled with the translation of its key, then one per custom field,
    labelled with the field's name. This needs the page's own columns not to
    start with ["extra."] and the custom fields to have distinct keys. *)
Theorem columnOptions_of_registry (t i18nKey : string → string)
    (allColumns : list string) (data : list ListPage.Field.t) :
  (∀ x, x ∈ allColumns → Js.String_startsWith x "extra." = false) →
  NoDup (ListPage.Field.key <$> data) →
  ListPage.columnOptions t i18nKey
    (ListPage.allColumnsWithExtraFields allColumns (Some data)) (Some data)
  = ((λ c, {| ColumnEditor.id := c;
              ColumnEditor.label := t (i18nKey c) |}) <$> allColumns)
    ++ ((λ f, {| ColumnEditor.id := "extra." +:+ ListPage.Field.key f;
                 ColumnEditor.label := ListPage.Field.name f |}) <$> data).
Proof.
  intros Hbase Hkeys.
  unfold ListPage.columnOptions, ListPage.allColumnsWithExtraFields.
  rewrite fmap_app. f_equal.
  - apply list_fmap_ext. intros k c Hc.
    by rewrite (Hbase c) by (by eapply list_elem_of_lookup_2).
  - rewrite <- list_fmap_compose. apply list_fmap_ext. intros k f Hf.
    apply list_elem_of_lookup_2 in Hf. simpl.
    unfold Js.String_startsWith. rewrite String_prefix_append.
    destruct (List.find _ data) as [g|] eqn:Hfind.
    + apply find_some in Hfind as [Hg Hkey].
      apply bool_decide_eq_true in Hkey. apply String_append_inj in Hkey.
      apply list_elem_of_In in Hg.
      by rewrite (field_of_key data g f Hkeys Hg Hf Hkey).
    + exfalso. apply list_elem_of_In in Hf.
      pose proof (find_none _ _ Hfind f Hf) as Hno. simpl in Hno.
      by rewrite bool_decide_eq_false in Hno.
Qed.

Lemma columnOptions_of_registry_witness :
  ListPage.columnOptions (λ k, k) ListPage.vendorI18nKey
    (ListPage.allColumnsWithExtraFields ["id"; "name"]%string
       (Some [ {| ListPage.Field.key := "lot";
                  ListPage.Field.name := "Lot number" |} ]%string))
    (Some [ {| ListPage.Field.key := "lot";
               ListPage.Field.name := "Lot number" |} ]%string)
  = [ {| ColumnEditor.id := "id"; ColumnEditor.label := "vendor.fields.id" |};
      {| ColumnEditor.id := "name";
         ColumnEditor.label := "vendor.fields.name" |};
      {| ColumnEditor.id := "extra.lot";
         ColumnEditor.label := "Lot number" |} ]%string.
Proof.
  apply (columnOptions_of_registry (λ k, k) ListPage.vendorI18nKey
           ["id"; "name"]%string).
  - intros x. rewrite !elem_of_cons, elem_of_nil.
    intros [->|[->|[]]]; reflexivity.
  - apply (bool_decide_unpack (NoDup _)); vm_compute; exact I.
Defined.

(** While the custom fields are not loaded (or for an id that starts with
    ["extra."] and matches no field) the column is labelled with its id. *)
Lemma columnOptions_unknown_field (t i18nKey : string → string)
    (k : string) :
  ListPage.columnOptions t i18nKey ["extra." +:+ k] None
  = [ {| ColumnEditor.id := "extra." +:+ k;
         ColumnEditor.label := "extra." +:+ k |} ].
Proof.
  unfold ListPage.columnOptions. simpl. unfold Js.String_startsWith.
  by rewrite String_prefix_append.
Qed.

(** X5. The order a confirm hands to the page is reconciled against the page's
    registry: it has exactly the registry's members, so the page's
    reconciliation effect, were it to run, would leave the page as it is. *)
Theorem applied_order_is_reconciled (t i18nKey : string → string)
    (registry : list string) (data : option (list ListPage.Field.t))
    (st : ColumnEditor.State) (p : ListPage.PageState) :
  let columns := ListPage.columnOptions t i18nKey registry data in
  let p' := ListPage.receive p
              (ColumnEditor.handle columns st ColumnEditor.Ok).2 in
  (∀ x, x ∈ ListPage.columnOrder p' ↔ x ∈ registry)
  ∧ ListPage.reconcileEffect registry p' = p'.
Proof.
  intros columns p'.
  assert (Hord : ListPage.columnOrder p'
                 = ListPage.reconcile (slotIds (ColumnEditor.order st))
                     registry).
  { unfold p', columns. simpl.
    by rewrite resolvedOrder_reconcile, columnOptions_ids. }
  assert (Hmem : ∀ x, x ∈ ListPage.columnOrder p' ↔ x ∈ registry)
    by (intros x; rewrite Hord; apply elem_of_reconcile).
  split; [done|].
  unfold ListPage.reconcileEffect.
  rewrite (reconcile_fixpoint (ListPage.columnOrder p') registry)
    by (intros x; apply Hmem).
  done.
Qed.

(** *** The translation key of a filament column *)

(** X6. Only the first dot of a column name becomes an underscore: the name up to
    it and everything after it are kept (["vendor.name"] gives
    ["filament.fields.vendor_name"]); a name without a dot is kept whole. *)
Theorem translateColumnI18nKey_first_dot (p q : string) :
  Forall (λ c, c ≠ "."%char) (list_ascii_of_string p) →
  ListPage.translateColumnI18nKey (p +:+ "." +:+ q)
  = "filament.fields." +:+ p +:+ "_" +:+ q
  ∧ ListPage.translateColumnI18nKey p = "filament.fields." +:+ p.
Proof.
  intros Hp. unfold ListPage.translateColumnI18nKey.
  assert (Hrep : ∀ rest,
    Js.String_replace "." "_" (p +:+ "." +:+ rest) = p +:+ "_" +:+ rest
    ∧ Js.String_replace "." "_" p = p).
  { induction p as [|c p IH]; intros rest; [done|].
    simpl in Hp. apply Forall_cons in Hp as [Hc Hp]. simpl.
    destruct (Ascii.eqb_spec c ".") as [->|_]; [done|].
    destruct (IH Hp rest) as [-> ->]. done. }
  destruct (Hrep q) as [-> ->]. done.
Qed.

Lemma translateColumnI18nKey_first_dot_witness :
  ListPage.translateColumnI18nKey ("vendor" +:+ "." +:+ "name")
  = "filament.fields." +:+ "vendor" +:+ "_" +:+ "name".
Proof.
  apply (translateColumnI18nKey_first_dot "vendor" "name").
  repeat constructor; discriminate.
Defined.

(** ** Dragging rows in the dialog *)

(** What [splice] does to an array, for any start and delete count: a run of
    at most [deleteCount] elements is cut out and [items] put in its place. *)
Lemma splice_parts {A : Type} (l : list A) (start deleteCount : Z)
    (items : list A) :
  ∃ a b : list A,
    l = a ++ (Js.splice l start deleteCount items).1 ++ b
    ∧ (Js.splice l start deleteCount items).2 = a ++ items ++ b
    ∧ (length (Js.splice l start deleteCount items).1
       ≤ Z.to_nat (Z.max deleteCount 0))%nat.
Proof.
  unfold Js.splice. simpl.
  set (s := Z.to_nat (Js.relativeStart (Z.of_nat (length l)) start)).
  set (d := Z.to_nat (Z.min (Z.max deleteCount 0) _)).
  exists (take s l), (drop (s + d) l). split_and!.
  - rewrite <- drop_drop, take_drop. by rewrite take_drop.
  - done.
  - rewrite length_take. unfold d. lia.
Qed.

(** Whatever the indices, [moveColumn] neither loses nor duplicates a column
    id of the working order. *)
Lemma slotIds_moveColumn (order : list (option string)) (i j : Z) :
  slotIds (ColumnEditor.moveColumn order i j) ≡ₚ slotIds order.
Proof.
  unfold ColumnEditor.moveColumn.
  destruct (splice_parts order i 1 []) as (a & b & Hl & Hnext & Hlen).
  destruct (Js.splice order i 1 []) as [removed next]. simpl in Hl, Hnext, Hlen.
  set (dragged := match removed with d :: _ => d | [] => None end).
  assert (Hdragged : slotIds [dragged] = slotIds removed).
  { unfold dragged. destruct removed as [|x [|y removed]]; [done..|].
    simpl in Hlen. lia. }
  destruct (splice_parts next j 0 [dragged])
    as (a' & b' & Hl' & Hnext' & Hlen').
  rewrite Hnext'. clear Hnext'.
  destruct (Js.splice next j 0 [dragged]) as [removed' next'].
  simpl in Hl', Hlen'.
  destruct removed' as [|? ?]; [|simpl in Hlen'; lia].
  simpl in Hl'. rewrite Hl. unfold slotIds in *.
  rewrite !omap_app, Hdragged.
  rewrite (Permutation_app_swap_app (omap _ a')).
  rewrite (Permutation_app_swap_app (omap _ a)).
  apply Permutation_app_head. rewrite <- !omap_app.
  by rewrite <- Hl', Hnext.
Qed.

(** X7. For any drag and hover index whatsoever (out of range, negative),
    [moveColumn] neither loses nor duplicates a column id of the working
    order, and the order the dialog shows and emits keeps exactly the
    registry's members. *)
Theorem moveColumn_keeps_ids (columns : list ColumnEditor.ColumnEditorColumn)
    (order : list (option string)) (i j : Z) :
  slotIds (ColumnEditor.moveColumn order i j) ≡ₚ slotIds order
  ∧ ColumnEditor.resolvedOrder columns (ColumnEditor.moveColumn order i j)
    ≡ₚ ColumnEditor.resolvedOrder columns order.
Proof.
  pose proof (slotIds_moveColumn order i j) as Hperm.
  split; [done|].
  rewrite !resolvedOrder_reconcile, !reconcile_eq_spec. unfold reconcile_spec.
  apply Permutation_app.
  - by rewrite Hperm.
  - erewrite (filter_agree (λ x, x ∉ slotIds (ColumnEditor.moveColumn order i j))
                (λ x, x ∉ slotIds order)); [done|].
    intros x _. by rewrite Hperm.
Qed.

(** X8. A drag index at or beyond the end of the working order removes nothing:
    [undefined] is inserted, the array grows by one slot, and the order the
    dialog shows and emits does not change. *)
Theorem moveColumn_drag_beyond_end
    (columns : list ColumnEditor.ColumnEditorColumn)
    (order : list (option string)) (i j : Z) :
  Z.of_nat (length order) ≤ i →
  length (ColumnEditor.moveColumn order i j) = S (length order)
  ∧ slotIds (ColumnEditor.moveColumn order i j) = slotIds order
  ∧ ColumnEditor.resolvedOrder columns (ColumnEditor.moveColumn order i j)
    = ColumnEditor.resolvedOrder columns order.
Proof.
  intros Hi.
  assert (Hfirst : Js.splice order i 1 [] = ([], order)).
  { unfold Js.splice, Js.relativeStart.
    destruct (Z.ltb_spec i 0) as [?|_]; [lia|].
    replace (Z.min i (Z.of_nat (length order)))
      with (Z.of_nat (length order)) by lia.
    replace (Z.min (Z.max 1 0) _) with 0 by lia.
    rewrite Nat2Z.id. change (Z.to_nat 0) with 0%nat.
    rewrite Nat.add_0_r, take_0, firstn_all, drop_all. simpl.
    by rewrite app_nil_r. }
  unfold ColumnEditor.moveColumn. rewrite Hfirst.
  destruct (splice_parts order j 0 [None]) as (a & b & Hl & Hnext & Hlen).
  rewrite Hnext. clear Hnext.
  destruct (Js.splice order j 0 [None]) as [removed next].
  simpl in Hl, Hlen. destruct removed; [|simpl in Hlen; lia].
  simpl in Hl.
  assert (Hids : slotIds (a ++ [None] ++ b) = slotIds order).
  { rewrite Hl. unfold slotIds. by rewrite !omap_app. }
  split_and!.
  - rewrite Hl, !length_app. simpl. lia.
  - done.
  - by rewrite !resolvedOrder_reconcile, Hids.
Qed.

Lemma moveColumn_drag_beyond_end_witness :
  length (ColumnEditor.moveColumn [Some "id"; Some "name"]%string 2 0) = 3%nat.
Proof.
  apply (moveColumn_drag_beyond_end [] [Some "id"; Some "name"]%string 2 0).
  simpl. lia.
Defined.

Lemma moveColumn_of_ids (o : list string) (i j : Z) (x : string) :
  0 ≤ i < Z.of_nat (length o) → 0 ≤ j < Z.of_nat (length o) →
  o !! Z.to_nat i = Some x →
  ColumnEditor.moveColumn (Some <$> o) i j
  = Some <$> (take (Z.to_nat j) (delete (Z.to_nat i) o)
              ++ x :: drop (Z.to_nat j) (delete (Z.to_nat i) o)).
Proof.
  intros Hi Hj Hx.
  rewrite (moveColumn_in_range (Some <$> o) i j (Some x)).
  - by rewrite fmap_app, fmap_cons, fmap_take, fmap_drop, list_fmap_delete.
  - by rewrite length_fmap.
  - by rewrite length_fmap.
  - by rewrite list_lookup_fmap, Hx.
Qed.

(** X9. When the working order holds exactly the registry's ids (as it does after
    the dialog is opened on a reconciled order), the rows are shown in the
    working order, and dragging row [i] onto row [j] shows the rows moved the
    same way: the reconciliation of the display commutes with the move. *)
Theorem drag_shows_moved_order (columns : list ColumnEditor.ColumnEditorColumn)
    (o : list string) (i j : Z) :
  (∀ x, x ∈ o ↔ x ∈ ColumnEditor.id <$> columns) →
  0 ≤ i < Z.of_nat (length o) → 0 ≤ j < Z.of_nat (length o) →
  ColumnEditor.resolvedOrder columns (Some <$> o) = o
  ∧ Some <$> ColumnEditor.resolvedOrder columns
               (ColumnEditor.moveColumn (Some <$> o) i j)
    = ColumnEditor.moveColumn
        (Some <$> ColumnEditor.resolvedOrder columns (Some <$> o)) i j.
Proof.
  intros Ho Hi Hj.
  assert (Hshown : ColumnEditor.resolvedOrder columns (Some <$> o) = o).
  { rewrite resolvedOrder_reconcile, slotIds_Some.
    apply reconcile_fixpoint; intros x; apply Ho. }
  split; [done|]. rewrite Hshown.
  destruct (lookup_lt_is_Some_2 o (Z.to_nat i)) as [x Hx]; [lia|].
  rewrite (moveColumn_of_ids o i j x Hi Hj Hx). f_equal.
  rewrite resolvedOrder_reconcile, slotIds_Some.
  set (rest := delete (Z.to_nat i) o).
  assert (Hperm : take (Z.to_nat j) rest ++ x :: drop (Z.to_nat j) rest ≡ₚ o).
  { rewrite <- Permutation_middle, take_drop.
    symmetry. by apply delete_Permutation. }
  apply reconcile_fixpoint; intros y; rewrite Hperm; apply Ho.
Qed.

Lemma drag_shows_moved_order_witness :
  ColumnEditor.resolvedOrder
    [ {| ColumnEditor.id := "id"; ColumnEditor.label := "ID" |};
      {| ColumnEditor.id := "name"; ColumnEditor.label := "Name" |} ]%string
    (Some <$> ["name"; "id"]%string)
  = ["name"; "id"]%string.
Proof.
  apply (drag_shows_moved_order
           [ {| ColumnEditor.id := "id"; ColumnEditor.label := "ID" |};
             {| ColumnEditor.id := "name"; ColumnEditor.label := "Name" |} ]%string
           ["name"; "id"]%string 0 1).
  - intros x. simpl. rewrite !elem_of_cons, !elem_of_nil. tauto.
  - simpl. lia.
  - simpl. lia.
Defined.

(** With a stale id in the working order the row indices and the indices of
    the working order differ: dragging the first row onto the second moves
    the stale slot, and the rows shown do not change. *)
Example drag_with_stale_id_moves_nothing :
  let columns :=
    [ {| ColumnEditor.id := "id"; ColumnEditor.label := "ID" |};
      {| ColumnEditor.id := "name"; ColumnEditor.label := "Name" |} ]%string in
  let order := [Some "legacy"; Some "id"; Some "name"]%string in
  ColumnEditor.resolvedOrder columns order = ["id"; "name"]%string
  ∧ ColumnEditor.resolvedOrder columns (ColumnEditor.moveColumn order 0 1)
    = ["id"; "name"]%string.
Proof. vm_compute. split; reflexivity. Qed.

(** One hover of a drag: the drag item points at the dragged column before
    and after. *)
Lemma hover_tracks (rowIndex : Z) (item : ColumnEditor.DragItem)
    (order : list (option string)) (x : option string) :
  0 ≤ ColumnEditor.index item < Z.of_nat (length order) →
  0 ≤ rowIndex < Z.of_nat (length order) →
  order !! Z.to_nat (ColumnEditor.index item) = Some x →
  let '(item', order') := ColumnEditor.hover rowIndex item order in
  ColumnEditor.index item' = rowIndex
  ∧ ColumnEditor.item_id item' = ColumnEditor.item_id item
  ∧ order' !! Z.to_nat rowIndex = Some x
  ∧ order' ≡ₚ order.
Proof.
  intros Hi Hr Hx. unfold ColumnEditor.hover.
  destruct (decide (ColumnEditor.index item = rowIndex)) as [<-|Hne].
  - done.
  - simpl. split_and!; [done..| |].
    + rewrite (moveColumn_in_range order _ rowIndex x Hi Hr Hx).
      apply list_lookup_middle. rewrite length_take_le; [done|].
      rewrite length_delete by eauto. lia.
    + rewrite (moveColumn_in_range order _ rowIndex x Hi Hr Hx).
      rewrite <- Permutation_middle, take_drop.
      symmetry. by apply delete_Permutation.
Qed.

(** X10. Throughout a drag over the rows, the drag item keeps pointing at the
    column that was picked up: after any sequence of hovers over rows of the
    list, the working order holds the dragged column at the item's index, the
    item's id is unchanged, and no column is lost or duplicated. *)
Theorem dragOver_tracks_dragged (rowIndexes : list Z)
    (item : ColumnEditor.DragItem) (order : list (option string))
    (x : option string) :
  Forall (λ r, 0 ≤ r < Z.of_nat (length order)) rowIndexes →
  0 ≤ ColumnEditor.index item < Z.of_nat (length order) →
  order !! Z.to_nat (ColumnEditor.index item) = Some x →
  (dragOver rowIndexes item order).2
    !! Z.to_nat (ColumnEditor.index (dragOver rowIndexes item order).1)
  = Some x
  ∧ ColumnEditor.item_id (dragOver rowIndexes item order).1
    = ColumnEditor.item_id item
  ∧ (dragOver rowIndexes item order).2 ≡ₚ order
  ∧ ColumnEditor.index (dragOver rowIndexes item order).1
    = default (ColumnEditor.index item) (last rowIndexes).
Proof.
  unfold dragOver.
  revert item order. induction rowIndexes as [|r rs IH]; intros item order.
  - intros _ Hi Hx. done.
  - intros Hrs Hi Hx. apply Forall_cons in Hrs as [Hr Hrs]. simpl.
    pose proof (hover_tracks r item order x Hi Hr Hx) as Hstep.
    destruct (ColumnEditor.hover r item order) as [item' order'].
    destruct Hstep as (Hidx & Hid & Hx' & Hperm).
    assert (Hlen : length order' = length order) by (by rewrite Hperm).
    destruct (IH item' order') as (H1 & H2 & H3 & H4).
    + by rewrite Hlen.
    + rewrite Hidx, Hlen. done.
    + by rewrite Hidx.
    + split_and!; [done|by rewrite H2|by rewrite H3|].
      rewrite H4, Hidx, last_cons. by destruct (last rs).
Qed.

Lemma dragOver_tracks_dragged_witness :
  (dragOver [1; 2] {| ColumnEditor.item_id := "id"; ColumnEditor.index := 0 |}
            [Some "id"; Some "name"; Some "price"]%string).2
  !! Z.to_nat (ColumnEditor.index
       (dragOver [1; 2]
          {| ColumnEditor.item_id := "id"; ColumnEditor.index := 0 |}
          [Some "id"; Some "name"; Some "price"]%string).1)
  = Some (Some "id"%string).
Proof.
  apply (dragOver_tracks_dragged [1; 2]
           {| ColumnEditor.item_id := "id"; ColumnEditor.index := 0 |}
           [Some "id"; Some "name"; Some "price"]%string (Some "id"%string)).
  - repeat constructor; simpl; lia.
  - simpl. lia.
  - reflexivity.
Defined.

(** ** The visibility set *)

Lemma foldl_Set_add (acc l : list string) :
  (NoDup acc → NoDup (foldl Js.Set_add acc l))
  ∧ ∀ x, x ∈ foldl Js.Set_add acc l ↔ x ∈ acc ∨ x ∈ l.
Proof.
  revert acc. induction l as [|y l IH]; intros acc; simpl.
  - split; [done|]. intros x. rewrite elem_of_nil. tauto.
  - destruct (IH (Js.Set_add acc y)) as [Hnd Hmem]. split.
    + intros Hacc. by apply Hnd, NoDup_Set_add.
    + intros x. rewrite Hmem, elem_of_Set_add, elem_of_cons. tauto.
Qed.

Lemma NoDup_Set_new (l : list string) : NoDup (Js.Set_new l).
Proof. apply (foldl_Set_add [] l). constructor. Qed.

Lemma elem_of_Set_new (l : list string) (x : string) :
  x ∈ Js.Set_new l ↔ x ∈ l.
Proof.
  unfold Js.Set_new. rewrite (proj2 (foldl_Set_add [] l)), elem_of_nil. tauto.
Qed.

(** A toggle never leaves an id twice in the visibility set. *)
Lemma NoDup_toggleColumn_any (prev : list string) (i : string) :
  NoDup (ColumnEditor.toggleColumn prev i).
Proof.
  unfold ColumnEditor.toggleColumn.
  pose proof (NoDup_Set_new prev) as Hnd.
  destruct (Js.Set_has _ i); [by apply NoDup_filter|by apply NoDup_Set_add].
Qed.

(** X11. One toggle flips the visibility of that column and of no other, and its
    result never lists a column twice, whatever list it starts from. *)
Theorem toggleColumn_flips_one (prev : list string) (i : string) :
  NoDup (ColumnEditor.toggleColumn prev i)
  ∧ (i ∈ ColumnEditor.toggleColumn prev i ↔ i ∉ prev)
  ∧ (∀ x, x ≠ i → (x ∈ ColumnEditor.toggleColumn prev i ↔ x ∈ prev)).
Proof.
  unfold ColumnEditor.toggleColumn, Js.Set_has.
  pose proof (NoDup_Set_new prev) as Hnd.
  case_bool_decide as Hi; rewrite elem_of_Set_new in Hi; split_and!.
  - by apply NoDup_filter.
  - rewrite elem_of_Set_delete. tauto.
  - intros x Hx. rewrite elem_of_Set_delete, elem_of_Set_new. tauto.
  - by apply NoDup_Set_add.
  - rewrite elem_of_Set_add. tauto.
  - intros x Hx. rewrite elem_of_Set_add, elem_of_Set_new. tauto.
Qed.

(** ** What the dialog emits *)

(** The working copy stays well formed under every user action: no id twice
    in the working order, no id twice in the visibility set. *)
Lemma handle_keeps_NoDup (columns : list ColumnEditor.ColumnEditorColumn)
    (st : ColumnEditor.State) (ev : ColumnEditor.Event) :
  NoDup (slotIds (ColumnEditor.order st)) →
  NoDup (ColumnEditor.visibleColumns st) →
  NoDup (slotIds (ColumnEditor.order (ColumnEditor.handle columns st ev).1))
  ∧ NoDup (ColumnEditor.visibleColumns (ColumnEditor.handle columns st ev).1).
Proof.
  intros Ho Hv. destruct ev as [r item|i|i v| |]; simpl; try done.
  - split; [|done]. unfold ColumnEditor.hover. case_decide; [done|].
    simpl. by rewrite slotIds_moveColumn.
  - split; [done|]. apply NoDup_toggleColumn_any.
Qed.

Lemma onOk_wellformed (columns : list ColumnEditor.ColumnEditorColumn)
    (st : ColumnEditor.State) (ns : ColumnEditor.LayoutState) :
  NoDup (ColumnEditor.id <$> columns) →
  NoDup (slotIds (ColumnEditor.order st)) →
  NoDup (ColumnEditor.visibleColumns st) →
  ns ∈ applied (ColumnEditor.onOk columns st) →
  ColumnEditor.columnOrder ns ≡ₚ ColumnEditor.id <$> columns
  ∧ NoDup (ColumnEditor.showColumns ns).
Proof.
  intros Hc Ho Hv Hns. simpl in Hns. apply list_elem_of_singleton in Hns as ->.
  simpl. split; [|done]. rewrite resolvedOrder_reconcile.
  apply NoDup_Permutation; [by apply NoDup_reconcile|done|].
  intros x. apply elem_of_reconcile.
Qed.

(** X12. Every layout the dialog emits, after it was opened on a duplicate-free
    order and whatever the user did since (drags with any indices, toggles,
    width edits, earlier confirms), lists each column of a duplicate-free
    registry exactly once, and lists no visible column twice. *)
Theorem emitted_layout_wellformed
    (columns : list ColumnEditor.ColumnEditorColumn)
    (props : ColumnEditor.LayoutState) (st : ColumnEditor.State)
    (evs : list ColumnEditor.Event) (ns : ColumnEditor.LayoutState) :
  NoDup (ColumnEditor.id <$> columns) →
  NoDup (ColumnEditor.columnOrder props) →
  ns ∈ applied (ColumnEditor.run columns
                  (ColumnEditor.openEffect true props st) evs).2 →
  ColumnEditor.columnOrder ns ≡ₚ ColumnEditor.id <$> columns
  ∧ NoDup (ColumnEditor.showColumns ns).
Proof.
  intros Hc Hp.
  assert (Hrun : ∀ evs st,
    NoDup (slotIds (ColumnEditor.order st)) →
    NoDup (ColumnEditor.visibleColumns st) →
    ns ∈ applied (ColumnEditor.run columns st evs).2 →
    ColumnEditor.columnOrder ns ≡ₚ ColumnEditor.id <$> columns
    ∧ NoDup (ColumnEditor.showColumns ns)).
  { clear evs st. induction evs as [|ev evs IH]; intros st Ho Hv Hns.
    - simpl in Hns. by apply elem_of_nil in Hns.
    - simpl in Hns.
      pose proof (handle_keeps_NoDup columns st ev Ho Hv) as [Ho' Hv'].
      assert (Hcalls : ∀ ns', ns' ∈ applied (ColumnEditor.handle columns st ev).2
                              → ns' ∈ applied (ColumnEditor.onOk columns st)).
      { intros ns'. destruct ev; simpl;
          try (intros H; by apply elem_of_nil in H); auto. }
      destruct (ColumnEditor.handle columns st ev) as [st' calls].
      specialize (IH st' Ho' Hv').
      destruct (ColumnEditor.run columns st' evs) as [st'' calls'].
      simpl in *. unfold applied in Hns. rewrite omap_app in Hns.
      apply elem_of_app in Hns as [Hns|Hns].
      + apply (onOk_wellformed columns st ns Hc Ho Hv). by apply Hcalls.
      + by apply IH. }
  apply Hrun; simpl.
  - by rewrite slotIds_Some.
  - apply NoDup_Set_new.
Qed.

Lemma emitted_layout_wellformed_witness :
  ColumnEditor.columnOrder
    {| ColumnEditor.columnOrder := ["name"; "id"]%string;
       ColumnEditor.showColumns := ["id"]%string;
       ColumnEditor.columnWidths := ∅ |}
  ≡ₚ ColumnEditor.id
     <$> [ {| ColumnEditor.id := "id"; ColumnEditor.label := "ID" |};
           {| ColumnEditor.id := "name"; ColumnEditor.label := "Name" |} ]%string.
Proof.
  apply (emitted_layout_wellformed
           [ {| ColumnEditor.id := "id"; ColumnEditor.label := "ID" |};
             {| ColumnEditor.id := "name"; ColumnEditor.label := "Name" |} ]%string
           {| ColumnEditor.columnOrder := ["id"; "name"]%string;
              ColumnEditor.showColumns := ["id"; "id"]%string;
              ColumnEditor.columnWidths := ∅ |}
           ColumnEditor.initialState
           [ColumnEditor.Hover 1 {| ColumnEditor.item_id := "id";
                                    ColumnEditor.index := 0 |};
            ColumnEditor.Ok]).
  - apply (bool_decide_unpack (NoDup _)); vm_compute; exact I.
  - apply (bool_decide_unpack (NoDup _)); vm_compute; exact I.
  - vm_compute. left.
Defined.

(** X13. Opening the dialog and confirming at once hands the page's layout back
    unchanged, when the page's order holds exactly the registry's ids and its
    list of visible columns has no duplicate. *)
Theorem open_then_confirm_is_identity
    (columns : list ColumnEditor.ColumnEditorColumn)
    (props : ColumnEditor.LayoutState) (st : ColumnEditor.State) :
  (∀ x, x ∈ ColumnEditor.columnOrder props ↔ x ∈ ColumnEditor.id <$> columns) →
  NoDup (ColumnEditor.showColumns props) →
  (ColumnEditor.handle columns (ColumnEditor.openEffect true props st)
     ColumnEditor.Ok).2
  = [ColumnEditor.onApply props].
Proof.
  intros Ho Hs. destruct props as [o s w]. simpl in *.
  unfold ColumnEditor.onOk. simpl. do 2 f_equal. f_equal.
  - rewrite resolvedOrder_reconcile, slotIds_Some.
    apply reconcile_fixpoint; intros x; apply Ho.
  - unfold Js.Array_from. by apply Set_new_copy.
Qed.

Lemma open_then_confirm_is_identity_witness :
  (ColumnEditor.handle
     [ {| ColumnEditor.id := "id"; ColumnEditor.label := "ID" |};
       {| ColumnEditor.id := "name"; ColumnEditor.label := "Name" |} ]%string
     (ColumnEditor.openEffect true
        {| ColumnEditor.columnOrder := ["name"; "id"]%string;
           ColumnEditor.showColumns := ["id"]%string;
           ColumnEditor.columnWidths := {["id"%string := Js.double_of_Z 70]} |}
        ColumnEditor.initialState)
     ColumnEditor.Ok).2
  = [ColumnEditor.onApply
       {| ColumnEditor.columnOrder := ["name"; "id"]%string;
          ColumnEditor.showColumns := ["id"]%string;
          ColumnEditor.columnWidths := {["id"%string := Js.double_of_Z 70]} |}].
Proof.
  apply (open_then_confirm_is_identity
           [ {| ColumnEditor.id := "id"; ColumnEditor.label := "ID" |};
             {| ColumnEditor.id := "name"; ColumnEditor.label := "Name" |} ]%string
           {| ColumnEditor.columnOrder := ["name"; "id"]%string;
              ColumnEditor.showColumns := ["id"]%string;
              ColumnEditor.columnWidths := {["id"%string := Js.double_of_Z 70]} |}).
  - intros x. simpl. rewrite !elem_of_cons, !elem_of_nil. tauto.
  - apply (bool_decide_unpack (NoDup _)); vm_compute; exact I.
Defined.

(** X14. Without a confirm nothing the user does in the dialog reaches the page:
    after any run of actions that holds no confirm (cancels included), the
    page's order, visible columns and widths are what they were. *)
Theorem no_confirm_no_change (columns : list ColumnEditor.ColumnEditorColumn)
    (st : ColumnEditor.State) (evs : list ColumnEditor.Event)
    (p : ListPage.PageState) :
  confirms evs = [] →
  ListPage.columnOrder (ListPage.receive p (ColumnEditor.run columns st evs).2)
  = ListPage.columnOrder p
  ∧ ListPage.showColumns (ListPage.receive p (ColumnEditor.run columns st evs).2)
    = ListPage.showColumns p
  ∧ ListPage.columnWidths
      (ListPage.receive p (ColumnEditor.run columns st evs).2)
    = ListPage.columnWidths p.
Proof.
  intros Hno.
  assert (Hcalls : Forall (λ call, call = ColumnEditor.onClose)
                     (ColumnEditor.run columns st evs).2).
  { revert st Hno. induction evs as [|ev evs IH]; intros st Hno; [done|].
    simpl.
    assert (Hev : Forall (λ call, call = ColumnEditor.onClose)
                    (ColumnEditor.handle columns st ev).2
                  ∧ confirms evs = []).
    { destruct ev; simpl in *; try done. by repeat constructor. }
    destruct Hev as [Hev Hno'].
    destruct (ColumnEditor.handle columns st ev) as [st' calls].
    specialize (IH st' Hno').
    destruct (ColumnEditor.run columns st' evs) as [st'' calls'].
    simpl in *. by apply Forall_app. }
  revert p. induction Hcalls as [|call calls -> _ IH]; intros p; [done|].
  unfold ListPage.receive in *. simpl. by destruct (IH (ListPage.onClose p)) as (-> & -> & ->).
Qed.

Lemma no_confirm_no_change_witness :
  ListPage.columnOrder
    (ListPage.receive
       {| ListPage.showColumns := ["id"]%string;
          ListPage.columnOrder := ["id"; "name"]%string;
          ListPage.columnWidths := ∅;
          ListPage.editColumnsOpen := true |}
       (ColumnEditor.run [] ColumnEditor.initialState
          [ColumnEditor.Toggle "name"; ColumnEditor.Cancel]).2)
  = ["id"; "name"]%string.
Proof.
  apply (no_confirm_no_change [] ColumnEditor.initialState
           [ColumnEditor.Toggle "name"; ColumnEditor.Cancel]
           {| ListPage.showColumns := ["id"]%string;
              ListPage.columnOrder := ["id"; "name"]%string;
              ListPage.columnWidths := ∅;
              ListPage.editColumnsOpen := true |}).
  reflexivity.
Defined.

(** ** The width map of the dialog *)

(** X15. A width edit touches the entry of its own column only, and typing a
    width and clearing the field again leaves no entry for the column: the
    map is back to what it was when the column had no width before. *)
Theorem updateWidth_set_then_clear (prev : gmap string Js.double)
    (i : string) (w : Js.double) (width : option Js.double) :
  (∀ j, j ≠ i → ColumnEditor.updateWidth prev i width !! j = prev !! j)
  ∧ ColumnEditor.updateWidth (ColumnEditor.updateWidth prev i (Some w)) i None
    = delete i prev
  ∧ (prev !! i = None →
     ColumnEditor.updateWidth (ColumnEditor.updateWidth prev i (Some w)) i None
     = prev).
Proof.
  split_and!.
  - intros j Hj. by apply updateWidth_other.
  - unfold ColumnEditor.updateWidth. apply delete_insert_eq.
  - intros Hnone. unfold ColumnEditor.updateWidth.
    rewrite delete_insert_eq. by apply delete_id.
Qed.

(** X16. What reaches the width map from the width input: a number is stored as
    it is, a string or [null] (the field emptied) clears the entry. *)
Theorem widthInput_clears_on_empty (columns : list ColumnEditor.ColumnEditorColumn)
    (st : ColumnEditor.State) (i : string) (v : ColumnEditor.InputValue) :
  ColumnEditor.widths
    (ColumnEditor.handle columns st (ColumnEditor.WidthInput i v)).1 !! i
  = match v with
    | ColumnEditor.VNumber q => Some q
    | ColumnEditor.VString _ | ColumnEditor.VNull => None
    end
  ∧ ColumnEditor.order
      (ColumnEditor.handle columns st (ColumnEditor.WidthInput i v)).1
    = ColumnEditor.order st
  ∧ ColumnEditor.visibleColumns
      (ColumnEditor.handle columns st (ColumnEditor.WidthInput i v)).1
    = ColumnEditor.visibleColumns st.
Proof.
  destruct v; simpl; unfold ColumnEditor.updateWidth.
  - by rewrite lookup_insert_eq.
  - by rewrite lookup_delete_eq.
  - by rewrite lookup_delete_eq.
Qed.

(** ** The rows of the dialog *)

Lemma columnsById_lookup (columns : list ColumnEditor.ColumnEditorColumn)
    (i : string) (column : ColumnEditor.ColumnEditorColumn) :
  ColumnEditor.columnsById columns !! i = Some column →
  column ∈ columns ∧ ColumnEditor.id column = i.
Proof.
  unfold ColumnEditor.columnsById.
  assert (Hgen : ∀ m : gmap string ColumnEditor.ColumnEditorColumn,
    foldl (λ m c, <[ColumnEditor.id c := c]> m) m columns !! i = Some column →
    m !! i = Some column ∨ (column ∈ columns ∧ ColumnEditor.id column = i)).
  { induction columns as [|c columns IH]; intros m Hm; simpl in Hm.
    - by left.
    - apply IH in Hm as [Hm|[Hin Hid]].
      + destruct (decide (ColumnEditor.id c = i)) as [Heq|Hne].
        * rewrite <- Heq, lookup_insert_eq in Hm. injection Hm as ->.
          right. split; [left|done].
        * rewrite lookup_insert_ne in Hm by done. by left.
      + right. split; [by right|done]. }
  intros Hm. apply Hgen in Hm as [Hm|Hm]; [|done].
  by rewrite lookup_empty in Hm.
Qed.

(** X17. The dialog never renders [null] for a row: every id of the resolved
    order gets a row, at its own index, labelled by a column of that id, with
    the visibility and the width the working copy holds for it. *)
Theorem rows_all_rendered (columns : list ColumnEditor.ColumnEditorColumn)
    (st : ColumnEditor.State) (k : nat) (i : string) :
  ColumnEditor.resolvedOrder columns (ColumnEditor.order st) !! k = Some i →
  ∃ column,
    column ∈ columns
    ∧ ColumnEditor.id column = i
    ∧ ColumnEditor.rows columns st !! k
      = Some (Some {| ColumnEditor.Row.id := i;
                      ColumnEditor.Row.label := ColumnEditor.label column;
                      ColumnEditor.Row.index := Z.of_nat k;
                      ColumnEditor.Row.isVisible :=
                        Js.Set_has (ColumnEditor.visibleColumns st) i;
                      ColumnEditor.Row.width :=
                        ColumnEditor.widths st !! i |}).
Proof.
  intros Hk.
  assert (Hin : i ∈ ColumnEditor.id <$> columns).
  { apply list_elem_of_lookup_2 in Hk.
    rewrite resolvedOrder_reconcile in Hk. by apply elem_of_reconcile in Hk. }
  apply columnsById_has_iff in Hin as [column Hcol].
  exists column. destruct (columnsById_lookup columns i column Hcol) as [? ?].
  split_and!; [done..|].
  unfold ColumnEditor.rows. rewrite list_lookup_imap, Hk. simpl.
  by rewrite Hcol.
Qed.

Lemma rows_all_rendered_witness :
  ∃ column,
    column ∈ [ {| ColumnEditor.id := "id"; ColumnEditor.label := "ID" |} ]%string
    ∧ ColumnEditor.id column = "id"%string
    ∧ ColumnEditor.rows
        [ {| ColumnEditor.id := "id"; ColumnEditor.label := "ID" |} ]%string
        ColumnEditor.initialState !! 0%nat
      = Some (Some {| ColumnEditor.Row.id := "id"%string;
                      ColumnEditor.Row.label := ColumnEditor.label column;
                      ColumnEditor.Row.index := Z.of_nat 0;
                      ColumnEditor.Row.isVisible :=
                        Js.Set_has
                          (ColumnEditor.visibleColumns ColumnEditor.initialState)
                          "id"%string;
                      ColumnEditor.Row.width :=
                        ColumnEditor.widths ColumnEditor.initialState
                        !! "id"%string |}).
Proof.
  apply (rows_all_rendered
           [ {| ColumnEditor.id := "id"; ColumnEditor.label := "ID" |} ]%string
           ColumnEditor.initialState 0 "id"%string).
  vm_compute. reflexivity.
Defined.

(** ** The columns of the table *)

Section TableColumns.
Context `{Js.Number number} {node rest : Type}.
Implicit Types (column : ListPage.ColumnType number node rest).
Implicit Types (columns : list (ListPage.ColumnType number node rest)).

Lemma find_by_key_Some columns (k : string) column :
  List.find (λ c, bool_decide (ListPage.getColumnKey c = Some k)) columns
  = Some column →
  column ∈ columns ∧ ListPage.getColumnKey column = Some k.
Proof.
  intros Hfind. apply find_some in Hfind as [Hin Hkey].
  split; [by apply list_elem_of_In|by apply bool_decide_eq_true in Hkey].
Qed.

Lemma find_by_key_None columns (k : string) :
  List.find (λ c, bool_decide (ListPage.getColumnKey c = Some k)) columns
  = None →
  Some k ∉ ListPage.getColumnKey <$> columns.
Proof.
  intros Hfind Hin. apply list_elem_of_fmap in Hin as (c & Hk & Hc).
  apply list_elem_of_In in Hc.
  pose proof (find_none _ _ Hfind c Hc) as Hno. simpl in Hno.
  by apply bool_decide_eq_false in Hno.
Qed.

(** Columns with a key are told apart by it when no key occurs twice. *)
Lemma column_of_key columns column column' (k : string) :
  NoDup (omap ListPage.getColumnKey columns) →
  column ∈ columns → column' ∈ columns →
  ListPage.getColumnKey column = Some k →
  ListPage.getColumnKey column' = Some k →
  column = column'.
Proof.
  induction columns as [|c columns IH]; intros Hnd Hc Hc' Hk Hk'.
  - by apply elem_of_nil in Hc.
  - assert (Hfresh : ∀ d, d ∈ columns → ListPage.getColumnKey d = Some k →
                          ListPage.getColumnKey c = Some k → False).
    { intros d Hd Hdk Hck. simpl in Hnd. rewrite Hck in Hnd.
      apply NoDup_cons in Hnd as [Hnotin _]. apply Hnotin.
      apply list_elem_of_omap. eauto. }
    assert (Hnd' : NoDup (omap ListPage.getColumnKey columns)).
    { simpl in Hnd. destruct (ListPage.getColumnKey c); [|done].
      by apply NoDup_cons in Hnd as [_ ?]. }
    apply elem_of_cons in Hc as [->|Hc]; apply elem_of_cons in Hc' as [->|Hc'].
    + done.
    + exfalso. by apply (Hfresh column').
    + exfalso. by apply (Hfresh column).
    + by apply IH.
Qed.

Lemma NoDup_keyed_filter columns
    (Q : ListPage.ColumnType number node rest → Prop)
    `{!∀ c, Decision (Q c)} :
  NoDup (omap ListPage.getColumnKey columns) →
  (∀ c, Q c → is_Some (ListPage.getColumnKey c)) →
  NoDup (filter Q columns).
Proof.
  intros Hnd HQ. induction columns as [|c columns IH]; [constructor|].
  assert (Hnd' : NoDup (omap ListPage.getColumnKey columns)).
  { simpl in Hnd. destruct (ListPage.getColumnKey c); [|done].
    by apply NoDup_cons in Hnd as [_ ?]. }
  rewrite filter_cons. case_decide as Hc; [|by apply IH].
  apply NoDup_cons. split; [|by apply IH].
  intros Hin. apply list_elem_of_filter in Hin as [_ Hin].
  destruct (HQ c Hc) as [k Hk]. simpl in Hnd. rewrite Hk in Hnd.
  apply NoDup_cons in Hnd as [Hnotin _]. apply Hnotin.
  apply list_elem_of_omap. eauto.
Qed.

Lemma NoDup_orderedColumns (columnOrder : list string) columns :
  NoDup columnOrder → NoDup (ListPage.orderedColumns columnOrder columns).
Proof.
  unfold ListPage.orderedColumns.
  induction columnOrder as [|k columnOrder IH]; intros Hnd; [constructor|].
  apply NoDup_cons in Hnd as [Hk Hnd]. simpl.
  destruct (List.find _ columns) as [c|] eqn:Hfind; [|by apply IH].
  apply NoDup_cons. split; [|by apply IH].
  intros Hin. apply list_elem_of_omap in Hin as (k' & Hk' & Hfind').
  apply find_by_key_Some in Hfind as [_ Hc].
  apply find_by_key_Some in Hfind' as [_ Hc'].
  rewrite Hc in Hc'. injection Hc' as <-. done.
Qed.

(** X18. The ordered columns of the table are the columns named by the saved
    order, in that order: an id without a column (a hidden column, a deleted
    custom field) is skipped, nothing else is. *)
Theorem orderedColumns_follow_order (columnOrder : list string) columns :
  ListPage.getColumnKey <$> ListPage.orderedColumns columnOrder columns
  = Some <$> filter (λ k, Some k ∈ ListPage.getColumnKey <$> columns)
                    columnOrder.
Proof.
  unfold ListPage.orderedColumns.
  induction columnOrder as [|k columnOrder IH]; [done|].
  rewrite filter_cons. simpl.
  destruct (List.find _ columns) as [c|] eqn:Hfind.
  - apply find_by_key_Some in Hfind as [Hin Hk].
    rewrite decide_True by (rewrite <- Hk; by apply list_elem_of_fmap_2).
    rewrite !fmap_cons, Hk. f_equal. exact IH.
  - apply find_by_key_None in Hfind. by rewrite decide_False.
Qed.

(** X19. Ordering the table loses no column and shows none twice: the table's
    columns are a permutation of the page's columns, when the saved order has
    no duplicate and no empty id, and no two columns have the same key. *)
Theorem tableColumns_permutation (columnOrder : list string) columns :
  NoDup columnOrder →
  ""%string ∉ columnOrder →
  NoDup (omap ListPage.getColumnKey columns) →
  ListPage.tableColumns columnOrder columns ≡ₚ columns.
Proof.
  intros Hord Hempty Hkeys. unfold ListPage.tableColumns.
  rewrite <- (filter_app_complement
                (λ c, ListPage.remains (list_to_set columnOrder) c) columns)
    at 3.
  rewrite (Permutation_app_comm (filter _ columns)).
  apply Permutation_app; [|done].
  assert (Hrem : ∀ c : ListPage.ColumnType number node rest,
            ¬ ListPage.remains (list_to_set columnOrder) c ↔
            ∃ k, ListPage.getColumnKey c = Some k ∧ k ∈ columnOrder).
  { intros c. unfold ListPage.remains.
    destruct (ListPage.getColumnKey c) as [k|].
    - rewrite orb_True, !bool_decide_spec, elem_of_list_to_set.
      split.
      + intros Hn. exists k. split; [done|].
        destruct (decide (k ∈ columnOrder)); tauto.
      + intros (k' & [= <-] & Hk) [->|Hn]; tauto.
    - split; [intros Hn; by destruct Hn|]. by intros (k & [=] & _). }
  apply NoDup_Permutation.
  - by apply NoDup_orderedColumns.
  - apply NoDup_keyed_filter; [done|].
    intros c Hc. apply Hrem in Hc as (k & -> & _). eauto.
  - intros c. rewrite list_elem_of_filter, Hrem.
    unfold ListPage.orderedColumns. rewrite list_elem_of_omap. split.
    + intros (k & Hk & Hfind). apply find_by_key_Some in Hfind as [Hin Hc].
      eauto.
    + intros [(k & Hc & Hk) Hin]. exists k. split; [done|].
      destruct (List.find _ columns) as [c'|] eqn:Hfind.
      * apply find_by_key_Some in Hfind as [Hin' Hc'].
        by rewrite (column_of_key columns c' c k).
      * apply find_by_key_None in Hfind. exfalso. apply Hfind.
        rewrite <- Hc. by apply list_elem_of_fmap_2.
Qed.

(** X20. A column the saved order does not name (the actions column, a column
    without a key) stays in the table, after the ordered columns. *)
Theorem unordered_column_remains (columnOrder : list string) columns column :
  column ∈ columns →
  (∀ k, ListPage.getColumnKey column = Some k → k ∉ columnOrder) →
  column ∈ ListPage.remainingColumns columnOrder columns
  ∧ column ∈ ListPage.tableColumns columnOrder columns
  ∧ column ∉ ListPage.orderedColumns columnOrder columns.
Proof.
  intros Hin Hk.
  assert (Hrem : column ∈ ListPage.remainingColumns columnOrder columns).
  { unfold ListPage.remainingColumns. apply list_elem_of_filter.
    split; [|done]. unfold ListPage.remains.
    destruct (ListPage.getColumnKey column) as [k|]; [|done].
    rewrite orb_True, !bool_decide_spec, elem_of_list_to_set.
    right. by apply Hk. }
  split_and!; [done| |].
  - unfold ListPage.tableColumns. apply elem_of_app. by right.
  - unfold ListPage.orderedColumns. rewrite list_elem_of_omap.
    intros (k & Hko & Hfind). apply find_by_key_Some in Hfind as [_ Hc].
    by apply (Hk k).
Qed.

(** X21. Adding the resize handles changes no column's key, so the ordering by key
    sees the same keys; a column gets a handle exactly when its key is
    neither empty nor ["actions"], and the handle is bound to the column's
    own key. *)
Theorem columnsWithResizers_keep_keys columns :
  ListPage.getColumnKey <$> ListPage.columnsWithResizers columns
  = ListPage.getColumnKey <$> columns
  ∧ ∀ (n : nat) column,
      columns !! n = Some column →
      ∃ column',
        ListPage.columnsWithResizers columns !! n = Some column'
        ∧ ListPage.key column' = ListPage.key column
        ∧ ListPage.dataIndex column' = ListPage.dataIndex column
        ∧ ListPage.rest_props column' = ListPage.rest_props column
        ∧ ListPage.title column'
          = match ListPage.getColumnKey column with
            | Some k =>
                if decide (k = ""%string ∨ k = "actions"%string)
                then ListPage.title column
                else ListPage.Resizable (ListPage.title column) k
            | None => ListPage.title column
            end.
Proof.
  unfold ListPage.columnsWithResizers. split.
  - rewrite <- list_fmap_compose. apply list_fmap_ext. intros n c _. simpl.
    destruct (ListPage.getColumnKey c) as [k|] eqn:Hk; [|done].
    destruct (_ || _); [done|]. done.
  - intros n c Hc. rewrite list_lookup_fmap, Hc. simpl. eexists.
    split; [done|].
    destruct (ListPage.getColumnKey c) as [k|]; [|done].
    destruct (decide (k = ""%string ∨ k = "actions"%string)) as [Hd|Hd].
    + assert (Hb : bool_decide (k = ""%string)
                   || bool_decide (k = "actions"%string) = true).
      { apply orb_true_iff. rewrite !bool_decide_eq_true. done. }
      by rewrite Hb.
    + assert (Hb : bool_decide (k = ""%string)
                   || bool_decide (k = "actions"%string) = false).
      { apply orb_false_iff. rewrite !bool_decide_eq_false. tauto. }
      by rewrite Hb.
Qed.

End TableColumns.

Lemma tableColumns_permutation_witness :
  ListPage.tableColumns (H := integerKeys) ["name"; "id"]%string
    [ {| ListPage.key := Some (ListPage.KeyString "id");
         ListPage.dataIndex := None;
         ListPage.title := ListPage.Plain "ID"%string;
         ListPage.rest_props := () |};
      {| ListPage.key := None;
         ListPage.dataIndex :=
           Some (ListPage.IndexPath [ListPage.KeyString "name"]);
         ListPage.title := ListPage.Plain "Name"%string;
         ListPage.rest_props := () |};
      {| ListPage.key := Some (ListPage.KeyString "actions");
         ListPage.dataIndex := None;
         ListPage.title := ListPage.Plain "Actions"%string;
         ListPage.rest_props := () |} ]%string
  ≡ₚ [ {| ListPage.key := Some (ListPage.KeyString "id");
          ListPage.dataIndex := None;
          ListPage.title := ListPage.Plain "ID"%string;
          ListPage.rest_props := () |};
       {| ListPage.key := None;
          ListPage.dataIndex :=
            Some (ListPage.IndexPath [ListPage.KeyString "name"]);
          ListPage.title := ListPage.Plain "Name"%string;
          ListPage.rest_props := () |};
       {| ListPage.key := Some (ListPage.KeyString "actions");
          ListPage.dataIndex := None;
          ListPage.title := ListPage.Plain "Actions"%string;
          ListPage.rest_props := () |} ]%string.
Proof.
  apply (tableColumns_permutation (H := integerKeys)).
  - apply (bool_decide_unpack (NoDup _)); vm_compute; exact I.
  - rewrite !elem_of_cons, elem_of_nil. intros [?|[?|[]]]; discriminate.
  - apply (bool_decide_unpack (NoDup _)); vm_compute; exact I.
Defined.

Lemma unordered_column_remains_witness :
  {| ListPage.key := Some (ListPage.KeyString "actions");
     ListPage.dataIndex := None;
     ListPage.title := ListPage.Plain "Actions"%string;
     ListPage.rest_props := () |}
  ∈ ListPage.tableColumns (H := integerKeys) ["id"]%string
      [ {| ListPage.key := Some (ListPage.KeyString "id");
           ListPage.dataIndex := None;
           ListPage.title := ListPage.Plain "ID"%string;
           ListPage.rest_props := () |};
        {| ListPage.key := Some (ListPage.KeyString "actions");
           ListPage.dataIndex := None;
           ListPage.title := ListPage.Plain "Actions"%string;
           ListPage.rest_props := () |} ]%string.
Proof.
  apply (unordered_column_remains (H := integerKeys)).
  - apply elem_of_cons. right. apply elem_of_cons. by left.
  - intros k [= <-]. rewrite elem_of_cons, elem_of_nil.
    intros [?|[]]; discriminate.
Defined.

(** The key of a column, on concrete columns: a key wins over the data
    index, an empty or zero key does not count, a path is joined by dots. *)
Example getColumnKey_cases :
  ListPage.getColumnKey (H := integerKeys)
    {| ListPage.key := Some (ListPage.KeyNumber 7);
       ListPage.dataIndex := Some (ListPage.IndexString "name");
       ListPage.title := ListPage.Plain (); ListPage.rest_props := () |}
  = Some "7"%string
  ∧ ListPage.getColumnKey (H := integerKeys)
      {| ListPage.key := Some (ListPage.KeyString "");
         ListPage.dataIndex :=
           Some (ListPage.IndexPath
                   [ListPage.KeyString "vendor"; ListPage.KeyString "name"]);
         ListPage.title := ListPage.Plain (); ListPage.rest_props := () |}
    = Some "vendor.name"%string
  ∧ ListPage.getColumnKey (H := integerKeys)
      {| ListPage.key := Some (ListPage.KeyNumber 0);
         ListPage.dataIndex := Some (ListPage.IndexNumber 3);
         ListPage.title := ListPage.Plain (); ListPage.rest_props := () |}
    = None.
Proof. vm_compute. split_and!; reflexivity. Qed.

(** ** More on the resize handle *)

Lemma le_Finite_inv (x : Js.double) (r : Z) :
  Js.le x (Js.Finite r) = true →
  x = Js.Infinity true ∨ ∃ r', x = Js.Finite r' ∧ r' ≤ r.
Proof.
  destruct x as [|[|]|r']; simpl; intros Hle; try done.
  - by left.
  - right. exists r'. split; [done|]. by apply Z.leb_le.
Qed.

Lemma onMouseMove_twice (d : ListPage.ResizeDrag) (x y : Js.double)
    (prev : gmap string Js.double) :
  ListPage.onMouseMove d x (ListPage.onMouseMove d y prev)
  = ListPage.onMouseMove d x prev.
Proof. unfold ListPage.onMouseMove. apply insert_insert_eq. Qed.

(** X22. The widths after a drag are those of one move to the final pointer
    position: the moves in between leave no trace, the width does not drift,
    and only the entry of the dragged column differs from before. The new
    entry is [Math.round(Math.max(60, startWidth + x - startX))], the sum
    taken from left to right in double arithmetic. *)
Theorem drag_depends_on_last_move (widths : gmap string Js.double)
    (k : string) (x0 : Js.double) (headerCell : option Js.double)
    (moves : list Js.double) (x : Js.double) :
  let d := ListPage.handleResizeStart widths k x0 headerCell in
  ListPage.drag d (moves ++ [x]) widths
  = <[k := Js.Math_round
             (Js.Math_max (Js.double_of_Z 60)
                (Js.sub (Js.add (ListPage.startWidth d) x) x0))]> widths.
Proof.
  intros d. rewrite drag_last_move.
  assert (Hgen : ∀ prev,
    ListPage.onMouseMove d x (ListPage.drag d moves prev)
    = ListPage.onMouseMove d x prev).
  { induction moves as [|y moves IH]; intros prev; [done|].
    unfold ListPage.drag in *. simpl. rewrite IH. apply onMouseMove_twice. }
  by rewrite Hgen.
Qed.

(** Pressed and moved at the same pointer position, an integer width from
    60 to 2^40 comes back as it is: the two roundings of
    [(width + x) - x] stay within half a pixel of it. *)
Lemma sum_at_press (n b : Z) :
  60 ≤ n ≤ 2 ^ 40 → Z.abs b ≤ 2 ^ 1114 →
  Js.Math_round
    (Js.Math_max (Js.double_of_Z 60)
       (Js.sub (Js.add (Js.double_of_Z n) (Js.Finite b)) (Js.Finite b)))
  = Js.double_of_Z n.
Proof.
  intros Hn Hb.
  assert (H1114 : 2 ^ 1114 = 2 ^ 40 * 2 ^ 1074) by (by rewrite <- Z.pow_add_r).
  assert (H1116 : 2 ^ 1116 = 4 * 2 ^ 1114) by (by rewrite <- (Z.pow_add_r 2 2)).
  assert (H1073 : 2 ^ 1073 = 2 ^ 10 * 2 ^ (1116 - 53))
    by (by rewrite <- Z.pow_add_r).
  assert (H1074 : 2 ^ 1074 = 2 * 2 ^ 1073) by (by rewrite <- Z.pow_succ_r).
  assert (0 < 2 ^ (1116 - 53)) by (by apply Z.pow_pos_nonneg).
  assert (0 < 2 ^ 40) by (by apply Z.pow_pos_nonneg).
  destruct (round64_near (n * 2 ^ 1074 + b) 1116) as (r1 & Hr1 & _ & Herr1);
    [nia|lia|].
  destruct (round64_near (r1 + - b) 1116) as (r2 & Hr2 & _ & Herr2);
    [nia|lia|].
  change (Js.add (Js.double_of_Z n) (Js.Finite b))
    with (Js.round64 (n * 2 ^ 1074 + b)).
  rewrite Hr1.
  change (Js.sub (Js.Finite r1) (Js.Finite b)) with (Js.round64 (r1 + - b)).
  rewrite Hr2.
  change (Js.double_of_Z 60) with (Js.Finite (60 * 2 ^ 1074)).
  rewrite Math_max_finite. apply Math_round_nearest. nia.
Qed.

(** X23. Pressing a resize handle and moving the pointer without leaving
    the position where it was pressed changes nothing, when the column's
    stored width is an integer from 60 to 2^40 and the pointer position is a
    finite number of magnitude at most 2^40 (whole or fractional). *)
Theorem resize_without_move (widths : gmap string Js.double) (k : string)
    (x : Js.double) (headerCell : option Js.double) (n b : Z) :
  widths !! k = Some (Js.double_of_Z n) → 60 ≤ n ≤ 2 ^ 40 →
  x = Js.Finite b → Z.abs b ≤ 2 ^ 1114 →
  ListPage.onMouseMove (ListPage.handleResizeStart widths k x headerCell)
    x widths
  = widths.
Proof.
  intros Hk Hn -> Hb. unfold ListPage.onMouseMove, ListPage.handleResizeStart.
  simpl. rewrite Hk. apply insert_id. rewrite Hk. f_equal.
  symmetry. by apply sum_at_press.
Qed.

Lemma resize_without_move_witness :
  ListPage.onMouseMove
    (ListPage.handleResizeStart {["name"%string := Js.double_of_Z 120]}
       "name" (Js.dyadic 3602879701896397 (-55)) None)
    (Js.dyadic 3602879701896397 (-55))
    {["name"%string := Js.double_of_Z 120]}
  = {["name"%string := Js.double_of_Z 120]}.
Proof.
  apply (resize_without_move {["name"%string := Js.double_of_Z 120]} "name"
           (Js.dyadic 3602879701896397 (-55)) None 120
           (3602879701896397 * 2 ^ (-55 + 1074))).
  - reflexivity.
  - split; [lia|]. vm_compute. discriminate.
  - reflexivity.
  - vm_compute. discriminate.
Defined.

Lemma small_width_at_press (q : Js.double) (b : Z) :
  Js.lt q (Js.double_of_Z 60) = true → Z.abs b ≤ 2 ^ 1114 →
  Js.Math_round
    (Js.Math_max (Js.double_of_Z 60)
       (Js.sub (Js.add q (Js.Finite b)) (Js.Finite b)))
  = Js.double_of_Z 60.
Proof.
  intros Hq Hb.
  assert (H1114 : 2 ^ 1114 = 2 ^ 40 * 2 ^ 1074) by (by rewrite <- Z.pow_add_r).
  assert (H1116 : 2 ^ 1116 = 4 * 2 ^ 1114) by (by rewrite <- (Z.pow_add_r 2 2)).
  assert (H1063 : 2 ^ (1116 - 53) = 2 * 2 ^ 1062)
    by (by rewrite <- Z.pow_succ_r).
  assert (H1073 : 2 ^ 1073 = 2 ^ 11 * 2 ^ 1062) by (by rewrite <- Z.pow_add_r).
  assert (H1074 : 2 ^ 1074 = 2 * 2 ^ 1073) by (by rewrite <- Z.pow_succ_r).
  assert (0 < 2 ^ 1062) by (by apply Z.pow_pos_nonneg).
  assert (0 < 2 ^ 40) by (by apply Z.pow_pos_nonneg).
  destruct q as [|[|]|a]; [done|apply (Math_round_integer 60)|done|].
  apply Z.ltb_lt in Hq.
  change (Js.add (Js.Finite a) (Js.Finite b)) with (Js.round64 (a + b)).
  (* the sum from exactly 60 bounds the sum from below 60 *)
  destruct (round64_near (60 * 2 ^ 1074 + b) 1116) as (r & Hr & _ & Herr);
    [nia|lia|].
  pose proof (round64_mono (a + b) (60 * 2 ^ 1074 + b)) as Hmono.
  rewrite Hr in Hmono.
  destruct (le_Finite_inv _ _ (Hmono ltac:(lia))) as [->|(r1 & -> & Hr1)].
  { apply (Math_round_integer 60). }
  change (Js.sub (Js.Finite r1) (Js.Finite b)) with (Js.round64 (r1 + - b)).
  assert (Hexact : Js.round64 ((60 * 2 ^ 12 + 1) * 2 ^ 1062)
                   = Js.Finite ((60 * 2 ^ 12 + 1) * 2 ^ 1062)).
  { apply round64_exact; [by vm_compute|lia|by vm_compute]. }
  pose proof (round64_mono (r1 + - b) ((60 * 2 ^ 12 + 1) * 2 ^ 1062)) as Hmono2.
  rewrite Hexact in Hmono2.
  assert (H12 : 2 ^ 1074 = 2 ^ 12 * 2 ^ 1062) by (by rewrite <- Z.pow_add_r).
  destruct (le_Finite_inv _ _ (Hmono2 ltac:(nia))) as [->|(r2 & -> & Hr2)].
  { apply (Math_round_integer 60). }
  change (Js.double_of_Z 60) with (Js.Finite (60 * 2 ^ 1074)).
  rewrite Math_max_finite. apply Math_round_nearest. nia.
Qed.

(** X24. A stored width below the minimum (one loaded from storage, say) is
    raised to 60 by the first mouse move of a drag, even without movement,
    for a pointer position of magnitude at most 2^40. *)
Theorem resize_raises_small_width (widths : gmap string Js.double)
    (k : string) (x : Js.double) (headerCell : option Js.double)
    (q : Js.double) (b : Z) :
  widths !! k = Some q → Js.lt q (Js.double_of_Z 60) = true →
  x = Js.Finite b → Z.abs b ≤ 2 ^ 1114 →
  ListPage.onMouseMove (ListPage.handleResizeStart widths k x headerCell)
    x widths !! k
  = Some (Js.double_of_Z 60).
Proof.
  intros Hk Hq -> Hb. unfold ListPage.onMouseMove, ListPage.handleResizeStart.
  simpl. rewrite Hk, lookup_insert_eq. f_equal.
  by apply small_width_at_press.
Qed.

Lemma resize_raises_small_width_witness :
  ListPage.onMouseMove
    (ListPage.handleResizeStart {["name"%string := Js.double_of_Z 40]}
       "name" (Js.double_of_Z 300) None)
    (Js.double_of_Z 300) {["name"%string := Js.double_of_Z 40]}
  !! "name"%string
  = Some (Js.double_of_Z 60).
Proof.
  apply (resize_raises_small_width {["name"%string := Js.double_of_Z 40]}
           "name" (Js.double_of_Z 300) None (Js.double_of_Z 40)
           (300 * 2 ^ 1074)).
  - reflexivity.
  - vm_compute. reflexivity.
  - reflexivity.
  - vm_compute. discriminate.
Defined.

(** The bounds are needed. A stored width of 2^53, pressed and moved at
    x = 1, becomes 2^53 - 1; a stored width of 59, pressed and moved at
    x = 2^56, becomes 64: there the doubles are 16 apart. *)
Example resize_at_press_far_values :
  ListPage.onMouseMove
    (ListPage.handleResizeStart
       {["name"%string := Js.double_of_Z (2 ^ 53)]} "name"
       (Js.double_of_Z 1) None)
    (Js.double_of_Z 1) {["name"%string := Js.double_of_Z (2 ^ 53)]}
  !! "name"%string
  = Some (Js.double_of_Z (2 ^ 53 - 1))
  ∧ ListPage.onMouseMove
      (ListPage.handleResizeStart
         {["name"%string := Js.double_of_Z 59]} "name"
         (Js.double_of_Z (2 ^ 56)) None)
      (Js.double_of_Z (2 ^ 56)) {["name"%string := Js.double_of_Z 59]}
    !! "name"%string
    = Some (Js.double_of_Z 64).
Proof. vm_compute. split; reflexivity. Qed.

Lemma round64_not_NaN (exact : Z) : Js.round64 exact ≠ Js.NaN.
Proof.
  destruct (round64_cases exact)
    as [[_ [[-> _]|[-> _]]]|[_ [[-> _]|[-> _]]]]; done.
Qed.

Lemma sub_monotone (t1 t2 : Js.double) (c : Z) :
  Js.le t1 t2 = true →
  Js.le (Js.sub t1 (Js.Finite c)) (Js.sub t2 (Js.Finite c)) = true.
Proof.
  destruct t1 as [|s1|r1], t2 as [|s2|r2]; try done.
  - intros Hle. change (Js.le (Js.Infinity s1) (Js.round64 (r2 + - c)) = true).
    change (s1 = true) in Hle. subst s1.
    pose proof (round64_not_NaN (r2 + - c)).
    by destruct (Js.round64 (r2 + - c)) as [|[|]|].
  - intros Hle. change (Js.le (Js.round64 (r1 + - c)) (Js.Infinity s2) = true).
    change (negb s2 = true) in Hle. destruct s2; [done|].
    pose proof (round64_not_NaN (r1 + - c)).
    by destruct (Js.round64 (r1 + - c)) as [|[|]|].
  - intros Hle. change ((r1 <=? r2) = true) in Hle. apply Z.leb_le in Hle.
    apply (round64_mono (r1 + - c) (r2 + - c)). lia.
Qed.

Lemma Math_max_monotone (k : Z) (s1 s2 : Js.double) :
  Js.le s1 s2 = true →
  Js.le (Js.Math_max (Js.Finite k) s1) (Js.Math_max (Js.Finite k) s2) = true.
Proof.
  destruct s1 as [|[|]|r1], s2 as [|[|]|r2]; try done.
  - intros _. change (Js.Math_max (Js.Finite k) (Js.Infinity true))
      with (Js.Finite k).
    by apply Z.leb_le.
  - intros _. change (Js.Math_max (Js.Finite k) (Js.Infinity true))
      with (Js.Finite k).
    rewrite Math_max_finite. apply Z.leb_le. lia.
  - intros _. rewrite Math_max_finite. done.
  - intros Hle. change ((r1 <=? r2) = true) in Hle. apply Z.leb_le in Hle.
    rewrite !Math_max_finite. apply Z.leb_le. lia.
Qed.

Lemma Math_round_monotone (x y : Js.double) :
  Js.le x y = true → Js.le (Js.Math_round x) (Js.Math_round y) = true.
Proof.
  destruct x as [|s1|a], y as [|s2|b]; try done.
  intros Hle. change ((a <=? b) = true) in Hle. apply Z.leb_le in Hle.
  apply Z.leb_le. apply Z.mul_le_mono_nonneg_r; [by apply Z.pow_nonneg|].
  apply Z.div_le_mono; [by apply Z.pow_pos_nonneg|lia].
Qed.

(** X25. Moving the pointer further to the right never makes the column
    narrower: for a finite starting width, a finite drag-start x and finite
    pointer positions, the stored width is monotone in the pointer
    position. *)
Theorem resize_monotone (d : ListPage.ResizeDrag) (x1 x2 : Js.double)
    (prev : gmap string Js.double) (a b1 b2 c : Z) :
  ListPage.startWidth d = Js.Finite a → ListPage.startX d = Js.Finite c →
  x1 = Js.Finite b1 → x2 = Js.Finite b2 →
  b1 ≤ b2 →
  ∃ w1 w2 : Js.double,
    ListPage.onMouseMove d x1 prev !! ListPage.columnId d = Some w1
    ∧ ListPage.onMouseMove d x2 prev !! ListPage.columnId d = Some w2
    ∧ Js.le w1 w2 = true.
Proof.
  intros Ha Hc -> -> Hb.
  rewrite !onMouseMove_written, Ha, Hc.
  do 2 eexists. split_and!; [done..|].
  apply Math_round_monotone, (Math_max_monotone (60 * 2 ^ 1074)), sub_monotone.
  apply (round64_mono (a + b1) (a + b2)). lia.
Qed.

Lemma resize_monotone_witness :
  ∃ w1 w2 : Js.double,
    ListPage.onMouseMove
      (ListPage.handleResizeStart ∅ "name" (Js.double_of_Z 200)
         (Some (Js.double_of_Z 100)))
      (Js.double_of_Z 150) ∅ !! "name"%string
    = Some w1
    ∧ ListPage.onMouseMove
        (ListPage.handleResizeStart ∅ "name" (Js.double_of_Z 200)
           (Some (Js.double_of_Z 100)))
        (Js.double_of_Z 250) ∅ !! "name"%string
      = Some w2
    ∧ Js.le w1 w2 = true.
Proof.
  apply (resize_monotone
           (ListPage.handleResizeStart ∅ "name" (Js.double_of_Z 200)
              (Some (Js.double_of_Z 100)))
           (Js.double_of_Z 150) (Js.double_of_Z 250) ∅
           (100 * 2 ^ 1074) (150 * 2 ^ 1074) (250 * 2 ^ 1074)
           (200 * 2 ^ 1074));
    try reflexivity; lia.
Defined.

Example resize_monotone_values :
  ListPage.onMouseMove
    (ListPage.handleResizeStart ∅ "name" (Js.double_of_Z 200)
       (Some (Js.double_of_Z 100)))
    (Js.double_of_Z 150) ∅ !! "name"%string
  = Some (Js.double_of_Z 60)
  ∧ ListPage.onMouseMove
      (ListPage.handleResizeStart ∅ "name" (Js.double_of_Z 200)
         (Some (Js.double_of_Z 100)))
      (Js.double_of_Z 250) ∅ !! "name"%string
    = Some (Js.double_of_Z 150).
Proof. vm_compute. split; reflexivity. Qed.
